(** * A shallow embedding of [src/config/config.go]

    The INI-style configuration reader of the [config] package: the
    line parser [_parse_line], the per-file loop [_parse_file], the
    driver [Parse_conf] with its deferred [finalize], and the lookup
    [Get].  Go strings are byte strings ([string]), Go [int]s are [Z],
    Go maps are [gmap]s, pointers are indices into explicit tables, a
    run-time panic is an explicit outcome, and the unspecified iteration
    order of [range] over a map is an explicit enumeration of the keys. *)

From Stdlib Require Import ZArith Ascii String Lia.
From stdpp Require Import base option list gmap strings.

(** ** Outcomes: a Go call either returns or panics *)

Inductive outcome (A : Type) : Type :=
| Ret (a : A)
| Panic (why : string).
Arguments Ret {A} a.
Arguments Panic {A} why.

(** ** Go strings *)

Module GoString.

Definition bytes (s : string) : list ascii := String.list_ascii_of_string s.
Definition of_bytes (l : list ascii) : string := String.string_of_list_ascii l.

(** [len(s)] *)
Definition len (s : string) : Z := Z.of_nat (String.length s).

(** [s[i]]: panics when [i] is out of range. *)
Definition at_ (s : string) (i : Z) : outcome ascii :=
  if bool_decide (0 ≤ i < len s)%Z then
    match String.get (Z.to_nat i) s with
    | Some c => Ret c
    | None => Panic "index out of range"
    end
  else Panic "index out of range".

(** [s[lo:hi]]: panics unless [0 <= lo <= hi <= len(s)]. *)
Definition slice (s : string) (lo hi : Z) : outcome string :=
  if bool_decide (0 ≤ lo ∧ lo ≤ hi ∧ hi ≤ len s)%Z then
    Ret (String.substring (Z.to_nat lo) (Z.to_nat (hi - lo)) s)
  else Panic "slice bounds out of range".

(** [s[:hi]] and [s[lo:]] *)
Definition slice_to (s : string) (hi : Z) : outcome string := slice s 0 hi.
Definition slice_from (s : string) (lo : Z) : outcome string := slice s lo (len s).

(** [strings.Index(s, substr)]: the byte offset of the first occurrence
    of [substr] in [s], or [-1]. *)
Fixpoint index_from (substr s : string) (i : Z) : Z :=
  if String.prefix substr s then i
  else match s with
       | EmptyString => (-1)%Z
       | String _ s' => index_from substr s' (i + 1)%Z
       end.
Definition Index (s substr : string) : Z := index_from substr s 0.

(** *** [strings.TrimSpace]

    [TrimSpace] removes every leading and every trailing white-space
    rune, as [unicode.IsSpace] defines white space, decoding the bytes
    as UTF-8.  A rune is white space exactly when its bytes are one of
    the encodings below; bytes that are no valid encoding decode to
    U+FFFD, which is not white space, so a position starts (ends) a
    white-space rune exactly when one of these encodings is a prefix
    (suffix) there. *)
Definition rune (l : list nat) : list ascii := ascii_of_nat <$> l.

Definition space_runes : list (list ascii) :=
  rune <$>
    [ [9]; [10]; [11]; [12]; [13]; [32]          (* \t \n \v \f \r ' ' *)
    ; [194; 133]; [194; 160]                     (* U+0085, U+00A0 *)
    ; [225; 154; 128]                            (* U+1680 *)
    ; [226; 128; 128]; [226; 128; 129]; [226; 128; 130]; [226; 128; 131]
    ; [226; 128; 132]; [226; 128; 133]; [226; 128; 134]; [226; 128; 135]
    ; [226; 128; 136]; [226; 128; 137]; [226; 128; 138] (* U+2000..U+200A *)
    ; [226; 128; 168]; [226; 128; 169]           (* U+2028, U+2029 *)
    ; [226; 128; 175]                            (* U+202F *)
    ; [226; 129; 159]                            (* U+205F *)
    ; [227; 128; 128] ]%nat.                     (* U+3000 *)

(** [strip_prefix p s]: [s] without its prefix [p], when it has it. *)
Fixpoint strip_prefix (p s : list ascii) : option (list ascii) :=
  match p, s with
  | [], _ => Some s
  | a :: p', b :: s' => if decide (a = b) then strip_prefix p' s' else None
  | _ :: _, [] => None
  end.

(** The rest of [s] after one leading rune out of [rs], if it has one. *)
Fixpoint strip_rune (rs : list (list ascii)) (s : list ascii) : option (list ascii) :=
  match rs with
  | [] => None
  | r :: rs' =>
      match strip_prefix r s with
      | Some s' => Some s'
      | None => strip_rune rs' s
      end
  end.

(** Drop leading runes out of [rs]; every rune is at least one byte, so
    [length s] rounds are enough. *)
Fixpoint trim_runes (fuel : nat) (rs : list (list ascii)) (s : list ascii) : list ascii :=
  match fuel with
  | O => s
  | S fuel' =>
      match strip_rune rs s with
      | Some s' => trim_runes fuel' rs s'
      | None => s
      end
  end.

Definition trim_left (s : list ascii) : list ascii :=
  trim_runes (length s) space_runes s.

(** Trailing runes are matched backwards: the reversed encodings against
    the reversed bytes. *)
Definition trim_right (s : list ascii) : list ascii :=
  reverse (trim_runes (length s) (reverse <$> space_runes) (reverse s)).

Definition TrimSpace (s : string) : string :=
  of_bytes (trim_right (trim_left (bytes s))).

End GoString.

Import GoString.

(** ** Errors

    The four error structs of the package.  Their fields are called
    [line], [error], [fname], [sec_name] and [key] in the source; the
    prefixes keep the projections apart.  The [error] field of a
    [ConfFileError] is a [*ConfLineError]. *)

Record ConfLineError := { cle_line : string; cle_error : string }.
Record ConfFileError := { cfe_fname : string; cfe_error : option ConfLineError }.
Record NoSuchSectionError := { nsse_sec_name : string }.
Record NoSuchKeyError := { nske_sec_name : string; nske_key : string }.

(** Values of the interface type [error]; [nil] is [None] in
    [option error]. *)
Inductive error : Type :=
| EOF                                   (* io.EOF *)
| IOError (msg : string)                (* any other error of os.Open or ReadLine *)
| ErrConfFile (e : ConfFileError)
| ErrNoSuchSection (e : NoSuchSectionError)
| ErrNoSuchKey (e : NoSuchKeyError).

Definition ConfLineError_Error (cle : ConfLineError) : string :=
  cle_line cle +:+ ": " +:+ cle_error cle.

Definition Error (e : error) : string :=
  match e with
  | EOF => "EOF"
  | IOError msg => msg
  | ErrConfFile cfe =>
      "configuration file error: " +:+ cfe_fname cfe +:+ String "010" (String "009" "")
        +:+ match cfe_error cfe with
            | Some cle => ConfLineError_Error cle
            | None => "<nil>"
            end
  | ErrNoSuchSection nsse => "no such section [" +:+ nsse_sec_name nsse +:+ "] was set"
  | ErrNoSuchKey nske =>
      "no such key [" +:+ nske_key nske +:+ "] was set under section ["
        +:+ nske_sec_name nske +:+ "]"
  end.

(** ** Data model *)

(** [type Section struct]: a name and its fields. *)
Record Section := { name : string; fields : gmap string string }.

(** [type PState struct]; [cur_sec] is a [*Section]: an address in the
    table of allocated sections, [None] for [nil]. *)
Record PState := { in_sec : bool; cur_sec : option nat }.

(** [type Config struct]: [conf_files] maps a path to its [*os.File]
    ([None] for [nil]), [sections] maps a name to its [*Section]. *)
Record Config := {
  conf_files : gmap string (option nat);
  sections : gmap string nat;
  _pstate : PState
}.

(** One result of [br.ReadLine()]: the line and the error next to it.
    The type has room for more than [ReadLine] delivers, which is a line
    or an error, never both: see [from_ReadLine]. *)
Definition ReadResult : Type := string * option error.


(** What the file system holds under a path: the results a buffered
    reader on the opened file delivers, or the reason why [os.Open]
    fails on it (permission denied, too many open files, ...). *)
Definition OpenResult : Type := string + list ReadResult.

(** An [os.File]: the path it was opened on, the results the buffered
    reader of [_parse_file] on it delivers, and how many times [Close]
    was called on it. *)
Record File := { fpath_of : string; reads : list ReadResult; closes : nat }.

(** The whole state a call can see or change: the [Config] object, the
    allocated [Section]s (a [*Section] is an index), the open-file table
    (a [*os.File] is an index), the files on disk and the console.  A
    path that [disk] does not hold does not exist. *)
Record State := {
  config : Config;
  heap : list Section;
  ftable : list File;
  disk : gmap string OpenResult;
  console : list string
}.

Definition set_config (f : Config → Config) (st : State) : State :=
  {| config := f (config st); heap := heap st; ftable := ftable st;
     disk := disk st; console := console st |}.
Definition set_heap (f : list Section → list Section) (st : State) : State :=
  {| config := config st; heap := f (heap st); ftable := ftable st;
     disk := disk st; console := console st |}.
Definition set_ftable (f : list File → list File) (st : State) : State :=
  {| config := config st; heap := heap st; ftable := f (ftable st);
     disk := disk st; console := console st |}.
Definition set_console (f : list string → list string) (st : State) : State :=
  {| config := config st; heap := heap st; ftable := ftable st;
     disk := disk st; console := f (console st) |}.

Definition set_conf_files (f : gmap string (option nat) → gmap string (option nat))
    (c : Config) : Config :=
  {| conf_files := f (conf_files c); sections := sections c; _pstate := _pstate c |}.
Definition set_sections (f : gmap string nat → gmap string nat) (c : Config) : Config :=
  {| conf_files := conf_files c; sections := f (sections c); _pstate := _pstate c |}.
Definition set_pstate (p : PState) (c : Config) : Config :=
  {| conf_files := conf_files c; sections := sections c; _pstate := p |}.

(** ** The monad of calls: state passing, with panics *)

Definition M (A : Type) : Type := State → outcome A * State.

Definition ret {A} (a : A) : M A := λ st, (Ret a, st).
Definition bind {A B} (m : M A) (f : A → M B) : M B := λ st,
  match m st with
  | (Ret a, st') => f a st'
  | (Panic why, st') => (Panic why, st')
  end.

Notation "'let!' x ':=' m 'in' k" := (bind m (λ x, k))
  (at level 10, x pattern, m at level 100, k at level 200, only parsing).

Definition lift {A} (o : outcome A) : M A := λ st, (o, st).
Definition gets {A} (f : State → A) : M A := λ st, (Ret (f st), st).
Definition modify (f : State → State) : M unit := λ st, (Ret tt, f st).

(** [defer f(); body]: [f] runs when [body] returns or panics. *)
Definition defer {A} (f : M unit) (body : M A) : M A := λ st,
  match body st with
  | (r, st1) =>
      match f st1 with
      | (Ret _, st2) => (r, st2)
      | (Panic why, st2) => (Panic why, st2)
      end
  end.

(** [for k := range m] in the enumeration [order] of the keys; the body
    answers [Some r] to [return r] and [None] to go on. *)
Fixpoint for_range {R} (order : list string) (body : string → M (option R))
    : M (option R) :=
  match order with
  | [] => ret None
  | k :: order' =>
      let! r := body k in
      match r with
      | Some x => ret (Some x)
      | None => for_range order' body
      end
  end.

(** An enumeration a [range] over [m] may follow: every key once. *)
Definition range_order {V} (m : gmap string V) (order : list string) : Prop :=
  NoDup order ∧ ∀ k, k ∈ order ↔ is_Some (m !! k).

(** ** The functions of the package *)

(** [console_log(level, message)] *)
Definition console_log (level message : string) : M unit :=
  modify (set_console (λ out, out ++ ["[" +:+ level +:+ "] " +:+ message])).

(** [NewSection(name)]: a fresh [Section] with no fields; the result is
    its address. *)
Definition NewSection (name : string) : M nat := λ st,
  (Ret (length (heap st)),
   set_heap (λ h, h ++ [{| name := name; fields := ∅ |}]) st).

(** [NewConfig(files)] *)
Definition NewConfig (files : list string) : Config :=
  {| conf_files := foldl (λ m file, <[file := None]> m) ∅ files;
     sections := ∅;
     _pstate := {| in_sec := false; cur_sec := None |} |}.

(** What [os.Open] finds for a path. *)
Definition open_result (d : gmap string OpenResult) (fpath : string) : OpenResult :=
  match d !! fpath with
  | Some r => r
  | None => inl "no such file or directory"
  end.

(** The [*PathError] of a failed [os.Open]. *)
Definition open_error (fpath reason : string) : error :=
  IOError ("open " +:+ fpath +:+ ": " +:+ reason).

(** [os.Open(fpath)]: a new open file, or an error. *)
Definition os_Open (fpath : string) : M (option nat * option error) := λ st,
  match open_result (disk st) fpath with
  | inr rs =>
      (Ret (Some (length (ftable st)), None),
       set_ftable (λ t, t ++ [{| fpath_of := fpath; reads := rs; closes := 0 |}]) st)
  | inl reason => (Ret (None, Some (open_error fpath reason)), st)
  end.

(** [fobj.Close()]: one more call of [Close] on the file; on a [nil]
    file it only returns an error, which [finalize] drops. *)
Definition closed (f : File) : File :=
  {| fpath_of := fpath_of f; reads := reads f; closes := S (closes f) |}.

Definition File_Close (fobj : option nat) : M unit :=
  match fobj with
  | None => ret tt
  | Some fd => modify (set_ftable (alter closed fd))
  end.

(** The body of the loop of [_open_files], for the key [fpath]. *)
Definition _open_files_body (fpath : string) : M (option (bool * option error)) :=
  let! c := gets config in
  match conf_files c !! fpath with
  | Some None =>
      let! (fobj, err) := os_Open fpath in
      match err with
      | Some e =>
          let! _ := console_log "ERROR" (Error e) in
          ret (Some (false, Some e))
      | None =>
          let! _ := modify (set_config (set_conf_files <[fpath := fobj]>)) in
          ret None
      end
  | _ => ret None
  end.

(** [_open_files] *)
Definition _open_files (order : list string) : M (bool * option error) :=
  let! r := for_range order _open_files_body in
  match r with
  | Some x => ret x
  | None => ret (true, None)
  end.

(** The messages of the four line errors. *)
Definition msg_empty_section : string := "section name cannot be empty".
Definition msg_invalid_line : string := "invalid configuration line".
Definition msg_empty_key : string := "key cannot be empty".
Definition msg_no_section : string := "configuration line without section".

Definition dquote : ascii := "034"%char.

(** [b == c] on bytes *)
Definition byte_eq (b c : ascii) : bool := bool_decide (b = c).

(** [s[0] == c && s[len(s) - 1] == c']: the right operand is evaluated
    only when the left one holds, and each indexing can panic. *)
Definition bounded_by (s : string) (c c' : ascii) : M bool :=
  let! first := lift (at_ s 0) in
  if byte_eq first c then
    let! last := lift (at_ s (len s - 1)) in
    ret (byte_eq last c')
  else ret false.

(** [cur_sec.fields[key] = value] through the pointer [cur_sec]; a
    pointer that is not [nil] points to an allocated [Section] (see
    [wf] below), so the last branch is never taken. *)
Definition store_field (cur_sec : option nat) (key value : string) : M unit :=
  match cur_sec with
  | None => lift (Panic "nil pointer dereference")
  | Some p =>
      modify (set_heap (λ h,
        match h !! p with
        | Some s => <[p := {| name := name s; fields := <[key := value]> (fields s) |}]> h
        | None => h
        end))
  end.

(** [_parse_line] *)
Definition _parse_line (line : string) : M (bool * option ConfLineError) :=
  if bool_decide (len line > 0)%Z then
    let line := TrimSpace line in
    let line_len := len line in
    if bool_decide (line_len > 0)%Z then
      let! is_header := bounded_by line "[" "]" in
      if is_header then
        let! sec_name := lift (slice line 1 (line_len - 1)) in
        if bool_decide (len sec_name = 0)%Z then
          ret (false, Some {| cle_line := line; cle_error := msg_empty_section |})
        else
          let! c := gets config in
          let! pSection :=
            match sections c !! sec_name with
            | Some p => ret p
            | None =>
                let! p := NewSection sec_name in
                let! _ := modify (set_config (set_sections <[sec_name := p]>)) in
                ret p
            end in
          let! _ := modify (set_config
                      (set_pstate {| in_sec := true; cur_sec := Some pSection |})) in
          ret (true, None)
      else
        let first_equation_pos := Index line "=" in
        if bool_decide (first_equation_pos ≤ 0)%Z then
          ret (false, Some {| cle_line := line; cle_error := msg_invalid_line |})
        else
          let! key := lift (slice_to line first_equation_pos) in
          let key := TrimSpace key in
          if bool_decide (len key = 0)%Z then
            ret (false, Some {| cle_line := line; cle_error := msg_empty_key |})
          else
            let! value := lift (slice_from line (first_equation_pos + 1)) in
            let value := TrimSpace value in
            let! quoted := bounded_by value dquote dquote in
            let! value := (if quoted then lift (slice value 1 (len value - 1))
                           else ret value) in
            let! c := gets config in
            if negb (in_sec (_pstate c)) then
              ret (false, Some {| cle_line := line; cle_error := msg_no_section |})
            else
              let! _ := store_field (cur_sec (_pstate c)) key value in
              ret (true, None)
    else ret (true, None)
  else ret (true, None).

(** One round of the loop of [_parse_file] on the read result
    [(line, err)]; [next] is the rest of the loop. *)
Definition _parse_file_round (fname line : string) (err : option error)
    (next : M (bool * option error)) : M (bool * option error) :=
  let! early :=
    match err with
    | None | Some EOF =>
        let! (_success, _err) := _parse_line line in
        if negb _success then
          ret (Some (false, Some (ErrConfFile {| cfe_fname := fname; cfe_error := _err |})))
        else ret None
    | Some _ => ret None
    end in
  match early with
  | Some r => ret r
  | None =>
      match err with
      | Some EOF => ret (true, None)
      | Some e =>
          let! _ := console_log "ERROR" (Error e) in
          ret (false, Some e)
      | None => next
      end
  end.

(** The loop of [_parse_file] over what the reader [br] delivers; once
    the recorded results are used up, [ReadLine] answers [io.EOF]. *)
Fixpoint _parse_file_loop (fname : string) (br : list ReadResult)
    : M (bool * option error) :=
  match br with
  | [] => _parse_file_round fname EmptyString (Some EOF) (ret (true, None))
  | (line, err) :: br' =>
      _parse_file_round fname line err (_parse_file_loop fname br')
  end.

(** [_parse_file] *)
Definition _parse_file (fname : string) (file : option nat) : M (bool * option error) :=
  match file with
  | Some fd =>
      let! t := gets ftable in
      match t !! fd with
      | Some f => _parse_file_loop fname (reads f)
      | None => lift (Panic "invalid file pointer")
      end
  | None => ret (true, None)
  end.

(** The body of the loop of [finalize], for the key [fpath]. *)
Definition finalize_body (fpath : string) : M (option unit) :=
  let! c := gets config in
  match conf_files c !! fpath with
  | Some fobj =>
      let! _ := File_Close fobj in
      ret None
  | None => ret None
  end.

(** [finalize] *)
Definition finalize (order : list string) : M unit :=
  let! _ := for_range order finalize_body in
  ret tt.

(** The body of the loop of [Parse_conf], for the key [fname]. *)
Definition Parse_conf_body (fname : string) : M (option (bool * option error)) :=
  let! c := gets config in
  match conf_files c !! fname with
  | Some fobj =>
      let! (_success, _err) := _parse_file fname fobj in
      if negb _success then ret (Some (false, _err)) else ret None
  | None => ret None
  end.

(** [Parse_conf]; [order1], [order2] and [order3] enumerate the keys of
    [conf_files] for the loops of [_open_files], of [Parse_conf] itself
    and of [finalize]. *)
Definition Parse_conf (order1 order2 order3 : list string) : M (bool * option error) :=
  let! (_success, _err) := _open_files order1 in
  defer (finalize order3)
    (if negb _success then ret (false, _err)
     else
       let! r := for_range order2 Parse_conf_body in
       match r with
       | Some x => ret x
       | None => ret (true, None)
       end).

(** [Get] *)
Definition Get (section key : string) : M (string * option error) :=
  let! c := gets config in
  match sections c !! section with
  | None => ret (EmptyString, Some (ErrNoSuchSection {| nsse_sec_name := section |}))
  | Some pSection =>
      let! h := gets heap in
      match h !! pSection with
      | None => lift (Panic "nil pointer dereference")
      | Some s =>
          match fields s !! key with
          | None =>
              ret (EmptyString,
                   Some (ErrNoSuchKey {| nske_sec_name := section; nske_key := key |}))
          | Some value => ret (value, None)
          end
      end
  end.

(** The state right after [NewConfig(files)] on a machine with the
    files [d] on disk. *)
Definition boot (d : gmap string OpenResult) (files : list string) : State :=
  {| config := NewConfig files; heap := []; ftable := []; disk := d; console := [] |}.



(** ** Reading a line without the store

    What [_parse_line] does with a line depends on the store only at
    the very end.  [lex] is the part before that: the checks and the
    slicing of the source, on the line alone, in the order of the
    source.  [exec] is the part that touches the store. *)

Inductive token : Type :=
| TBlank
| THeader (sec_name : string)
| TError (e : ConfLineError)
| TAssign (line key value : string)
| TPanic (why : string).

Definition is_bounded (s : string) (c c' : ascii) : outcome bool :=
  match at_ s 0 with
  | Ret first =>
      if byte_eq first c then
        match at_ s (len s - 1) with
        | Ret last => Ret (byte_eq last c')
        | Panic why => Panic why
        end
      else Ret false
  | Panic why => Panic why
  end.

(** Lines 144 to 146 of the source: the quote test, then the slice. *)
Definition strip_quotes (value : string) : outcome string :=
  match is_bounded value dquote dquote with
  | Ret true => slice value 1 (len value - 1)
  | Ret false => Ret value
  | Panic why => Panic why
  end.

Definition lex_key_value (line : string) : token :=
  let first_equation_pos := Index line "=" in
  if bool_decide (first_equation_pos ≤ 0)%Z then
    TError {| cle_line := line; cle_error := msg_invalid_line |}
  else
    match slice_to line first_equation_pos with
    | Panic why => TPanic why
    | Ret key =>
        let key := TrimSpace key in
        if bool_decide (len key = 0)%Z then
          TError {| cle_line := line; cle_error := msg_empty_key |}
        else
          match slice_from line (first_equation_pos + 1) with
          | Panic why => TPanic why
          | Ret value =>
              match strip_quotes (TrimSpace value) with
              | Panic why => TPanic why
              | Ret value => TAssign line key value
              end
          end
    end.

Definition lex_header (line : string) : token :=
  match slice line 1 (len line - 1) with
  | Panic why => TPanic why
  | Ret sec_name =>
      if bool_decide (len sec_name = 0)%Z then
        TError {| cle_line := line; cle_error := msg_empty_section |}
      else THeader sec_name
  end.

Definition lex (line : string) : token :=
  if bool_decide (len line > 0)%Z then
    let line := TrimSpace line in
    if bool_decide (len line > 0)%Z then
      match is_bounded line "[" "]" with
      | Panic why => TPanic why
      | Ret true => lex_header line
      | Ret false => lex_key_value line
      end
    else TBlank
  else TBlank.

(** The key and the trimmed value with which a line reaches the quote
    test of line 144, if it gets there. *)
Definition key_value (line : string) : option (string * string) :=
  if bool_decide (len line > 0)%Z then
    let line := TrimSpace line in
    if bool_decide (len line > 0)%Z then
      match is_bounded line "[" "]" with
      | Ret false =>
          let first_equation_pos := Index line "=" in
          if bool_decide (first_equation_pos ≤ 0)%Z then None
          else
            match slice_to line first_equation_pos,
                  slice_from line (first_equation_pos + 1) with
            | Ret key, Ret value =>
                if bool_decide (len (TrimSpace key) = 0)%Z then None
                else Some (TrimSpace key, TrimSpace value)
            | _, _ => None
            end
      | _ => None
      end
    else None
  else None.

(** Lines 125 to 131 of the source. *)
Definition open_section (sec_name : string) : M (bool * option ConfLineError) :=
  let! c := gets config in
  let! pSection :=
    match sections c !! sec_name with
    | Some p => ret p
    | None =>
        let! p := NewSection sec_name in
        let! _ := modify (set_config (set_sections <[sec_name := p]>)) in
        ret p
    end in
  let! _ := modify (set_config
              (set_pstate {| in_sec := true; cur_sec := Some pSection |})) in
  ret (true, None).

(** Lines 147 to 152 of the source. *)
Definition assign (line key value : string) : M (bool * option ConfLineError) :=
  let! c := gets config in
  if negb (in_sec (_pstate c)) then
    ret (false, Some {| cle_line := line; cle_error := msg_no_section |})
  else
    let! _ := store_field (cur_sec (_pstate c)) key value in
    ret (true, None).

Definition exec (t : token) : M (bool * option ConfLineError) :=
  match t with
  | TBlank => ret (true, None)
  | THeader sec_name => open_section sec_name
  | TError e => ret (false, Some e)
  | TAssign line key value => assign line key value
  | TPanic why => lift (Panic why)
  end.

(** ** Views of the state *)

(** The store is well formed: a registered name points to an allocated
    [Section] of that name, every allocated [Section] is the one
    registered under its name, and an active parser points to an
    allocated [Section]. *)
Definition wf (st : State) : Prop :=
  (∀ n p, sections (config st) !! n = Some p →
     ∃ s, heap st !! p = Some s ∧ name s = n) ∧
  (∀ p s, heap st !! p = Some s → sections (config st) !! name s = Some p) ∧
  (in_sec (_pstate (config st)) = true →
     ∃ p, cur_sec (_pstate (config st)) = Some p ∧ is_Some (heap st !! p)).

(** The value [Get] finds, if it finds one. *)
Definition field_of (st : State) (section key : string) : option string :=
  p ← sections (config st) !! section;
  s ← heap st !! p;
  fields s !! key.

(** The name of the section the parser is in, if it is in one. *)
Definition cur_name (st : State) : option string :=
  if in_sec (_pstate (config st)) then
    p ← cur_sec (_pstate (config st));
    name <$> heap st !! p
  else None.

(** The lines the loop of [_parse_file] hands to [_parse_line] when the
    reader delivers [br]. *)
Fixpoint fed_lines (br : list ReadResult) : list string :=
  match br with
  | [] => [EmptyString]
  | (line, None) :: br' => line :: fed_lines br'
  | (line, Some EOF) :: _ => [line]
  | (_, Some _) :: _ => []
  end.

(** The lines of the files under the keys [order], file after file. *)
Definition file_lines (st : State) (fname : string) : list string :=
  match conf_files (config st) !! fname with
  | Some (Some fd) =>
      match ftable st !! fd with
      | Some f => fed_lines (reads f)
      | None => []
      end
  | _ => []
  end.

Definition lines_parsed (order : list string) (st : State) : list string :=
  concat (file_lines st <$> order).

(** [_parse_line] on line after line, as long as it reports success. *)
Fixpoint run_lines (ls : list string) (st : State) : option State :=
  match ls with
  | [] => Some st
  | l :: ls' =>
      match _parse_line l st with
      | (Ret (true, _), st1) => run_lines ls' st1
      | _ => None
      end
  end.

(** The assignments a sequence of lines makes, read off the lines: a
    header makes its name the current section, a key/value line assigns
    in the current section. *)
Fixpoint assignments (cur : option string) (ls : list string)
    : list (string * string * string) :=
  match ls with
  | [] => []
  | l :: ls' =>
      match lex l with
      | TBlank => assignments cur ls'
      | THeader sec_name => assignments (Some sec_name) ls'
      | TAssign _ key value =>
          match cur with
          | Some sec => (sec, key, value) :: assignments cur ls'
          | None => []
          end
      | _ => []
      end
  end.

(** The value of the last assignment to [key] in [section]. *)
Definition last_write (section key : string) (evs : list (string * string * string))
    : option string :=
  snd <$> last (filter (λ e, e.1 = (section, key)) evs).

(** Registered names are not empty; stored keys are not empty, also
    after trimming. *)
Definition names_keys_ok (st : State) : Prop :=
  (∀ n p, sections (config st) !! n = Some p → n ≠ EmptyString) ∧
  (∀ p s k v, heap st !! p = Some s → fields s !! k = Some v →
     TrimSpace k ≠ EmptyString).

(** The paths opened so far, in the order of the calls of [os.Open]. *)
Definition opened (st : State) : list string := fpath_of <$> ftable st.

(** Every open file is held under exactly one path of [conf_files]. *)
Definition files_owned (st : State) : Prop :=
  (∀ k fd, conf_files (config st) !! k = Some (Some fd) → fd < length (ftable st)) ∧
  (∀ fd, fd < length (ftable st) → ∃ k, conf_files (config st) !! k = Some (Some fd)) ∧
  (∀ k k' fd, conf_files (config st) !! k = Some (Some fd) →
     conf_files (config st) !! k' = Some (Some fd) → k = k').

(** Two states with the same files: [_parse_line] keeps them. *)
Definition same_files (st st1 : State) : Prop :=
  conf_files (config st1) = conf_files (config st) ∧ ftable st1 = ftable st ∧
  disk st1 = disk st.

(** Two states with the same store: opening and closing files keep it. *)
Definition same_store (st st1 : State) : Prop :=
  heap st1 = heap st ∧ sections (config st1) = sections (config st) ∧
  _pstate (config st1) = _pstate (config st) ∧ disk st1 = disk st.

(** How many keys of [order] hold the open file [fd]. *)
Definition holders (st : State) (fd : nat) (order : list string) : nat :=
  length (filter (λ k, conf_files (config st) !! k = Some (Some fd)) order).

(** The file [f], found at [fd], after [finalize] went through [order]. *)
Definition closed_by (st : State) (order : list string) (fd : nat) (f : File) : File :=
  {| fpath_of := fpath_of f; reads := reads f;
     closes := closes f + holders st fd order |}.

(** ** Sample inputs *)

(** Two files that open the same section and assign the same key. *)
Definition disk_ab : gmap string OpenResult :=
  <["a" := inr [("[s]", None); ("k = 1", None)]]>
    (<["b" := inr [("[s]", None); ("k = 2", None)]]> ∅).

(** One file whose only line is a key with nothing after the [=]. *)
Definition disk_bare_key : gmap string OpenResult :=
  <["a" := inr [("k =", None)]]> ∅.

(** One file that assigns a key twice, and a path that is not on disk. *)
Definition disk_twice : gmap string OpenResult :=
  <["a" := inr [("[s]", None); ("a = 1", None); ("a = 2", None)]]> ∅.

(** One file that exists and cannot be opened, one that can, and a path
    that is not on disk. *)
Definition disk_locked : gmap string OpenResult :=
  <["a" := inl "permission denied"]> (<["b" := inr [("[s]", None)]]> ∅).

(** ** Further views, for the properties beyond the claims *)

(** The messages a line error can carry. *)
Definition line_messages : list string :=
  [msg_empty_section; msg_invalid_line; msg_empty_key; msg_no_section].

(** [v] between two double quotes. *)
Definition quoted (v : string) : string :=
  String dquote (v +:+ String dquote EmptyString).

(** Every stored key is in trimmed form and holds no [=]. *)
Definition keys_clean (st : State) : Prop :=
  ∀ p s k v, heap st !! p = Some s → fields s !! k = Some v →
    TrimSpace k = k ∧ "="%char ∉ bytes k.

(** A read result whose line is blank and whose error is [nil] or
    [io.EOF]. *)
Definition blank_read (rr : ReadResult) : Prop :=
  TrimSpace rr.1 = EmptyString ∧ (rr.2 = None ∨ rr.2 = Some EOF).

(** The state of a parser that has read the header [[s]] and nothing
    else. *)
Definition st_in_s : State := (_parse_line "[s]" (boot ∅ [])).2.

(** * Properties *)

(** ** Go strings *)

Section go_strings.

Lemma len_nonneg s : (0 ≤ len s)%Z.
Proof. unfold len. lia. Qed.

Lemma len_0 s : len s = 0%Z ↔ s = EmptyString.
Proof.
  unfold len. split.
  - destruct s; [done | simpl; lia].
  - by intros ->.
Qed.

Lemma bytes_of_bytes l : bytes (of_bytes l) = l.
Proof. apply String.list_ascii_of_string_of_list_ascii. Qed.

Lemma of_bytes_bytes s : of_bytes (bytes s) = s.
Proof. apply String.string_of_list_ascii_of_string. Qed.

Lemma strip_prefix_Some p s s' : strip_prefix p s = Some s' ↔ s = p ++ s'.
Proof.
  revert s. induction p as [|a p IH]; intros s; simpl.
  - clear. split; congruence.
  - destruct s as [|b s]; [split; discriminate|].
    case_decide as Hab.
    + subst b. rewrite IH. split; [by intros -> | by intros [= ->]].
    + split; [discriminate | intros [= ? _]; congruence].
Qed.

Lemma strip_rune_Some rs s s' :
  strip_rune rs s = Some s' → ∃ r, r ∈ rs ∧ s = r ++ s'.
Proof.
  induction rs as [|r rs IH]; simpl; [done|].
  destruct (strip_prefix r s) as [t|] eqn:Hr.
  - intros [= ->]. apply strip_prefix_Some in Hr. exists r. split; [left | done].
  - intros (r' & ? & ?)%IH. exists r'. split; [by right | done].
Qed.

Lemma strip_rune_None rs s :
  strip_rune rs s = None ↔ ∀ r, r ∈ rs → ¬ r `prefix_of` s.
Proof.
  induction rs as [|r rs IH]; simpl.
  - split; [intros _ r Hr; by apply elem_of_nil in Hr | done].
  - destruct (strip_prefix r s) as [t|] eqn:Hr.
    + split; [done|]. intros H. apply strip_prefix_Some in Hr.
      destruct (H r); [left | by exists t].
    + rewrite IH. split.
      * intros H r' [->|?]%elem_of_cons; [|by apply H].
        intros [t Ht]. apply strip_prefix_Some in Ht. congruence.
      * intros H r' ?. apply H. by right.
Qed.

Lemma trim_runes_suffix n rs s : trim_runes n rs s `suffix_of` s.
Proof.
  revert s. induction n as [|n IH]; intros s; simpl; [done|].
  destruct (strip_rune rs s) as [s'|] eqn:Hs; [|done].
  apply strip_rune_Some in Hs as (r & _ & ->).
  etrans; [apply IH|]. by apply suffix_app_r.
Qed.

Lemma trim_runes_done n rs s :
  Forall (λ r, r ≠ []) rs → length s ≤ n →
  strip_rune rs (trim_runes n rs s) = None.
Proof.
  intros Hrs. revert s. induction n as [|n IH]; intros s Hn; simpl.
  - destruct s; [|simpl in Hn; lia].
    apply strip_rune_None. intros r Hr [t Ht].
    rewrite Forall_forall in Hrs. apply (Hrs r Hr).
    symmetry in Ht. by apply app_eq_nil in Ht as [-> _].
  - destruct (strip_rune rs s) as [s'|] eqn:Hs; [|done].
    apply IH. apply strip_rune_Some in Hs as (r & Hr & ->).
    rewrite Forall_forall in Hrs. specialize (Hrs r Hr).
    rewrite length_app in Hn. destruct r; [done | simpl in Hn; lia].
Qed.

Lemma trim_runes_id n rs s : strip_rune rs s = None → trim_runes n rs s = s.
Proof. intros H. destruct n; simpl; [done | by rewrite H]. Qed.

Lemma strip_rune_None_prefix rs s t :
  strip_rune rs s = None → t `prefix_of` s → strip_rune rs t = None.
Proof.
  rewrite !strip_rune_None. intros H Ht r Hr Hrt. apply (H r Hr). by etrans.
Qed.

Lemma space_runes_nonempty : Forall (λ r, r ≠ []) space_runes.
Proof. unfold space_runes. repeat constructor; done. Qed.

Lemma space_runes_rev_nonempty : Forall (λ r, r ≠ []) (reverse <$> space_runes).
Proof. unfold space_runes. repeat constructor; done. Qed.

Lemma trim_right_prefix u : trim_right u `prefix_of` u.
Proof.
  unfold trim_right.
  destruct (trim_runes_suffix (length u) (reverse <$> space_runes) (reverse u))
    as [k Hk].
  exists (reverse k). rewrite <- reverse_app, <- Hk. by rewrite reverse_involutive.
Qed.

Lemma trim_left_fixed v : strip_rune space_runes v = None → trim_left v = v.
Proof. apply trim_runes_id. Qed.

(** Trimming what [TrimSpace] returned changes nothing. *)
Lemma TrimSpace_idemp s : TrimSpace (TrimSpace s) = TrimSpace s.
Proof.
  unfold TrimSpace. rewrite bytes_of_bytes. f_equal.
  set (u := trim_left (bytes s)).
  assert (Hu : strip_rune space_runes u = None).
  { apply trim_runes_done; [apply space_runes_nonempty | done]. }
  rewrite trim_left_fixed
    by (eapply strip_rune_None_prefix; [exact Hu | apply trim_right_prefix]).
  set (w := trim_runes (length u) (reverse <$> space_runes) (reverse u)).
  change (trim_right u) with (reverse w).
  unfold trim_right. rewrite reverse_involutive.
  rewrite (trim_runes_id _ _ w); [done|].
  apply trim_runes_done; [apply space_runes_rev_nonempty|].
  by rewrite length_reverse.
Qed.

Lemma TrimSpace_empty : TrimSpace EmptyString = EmptyString.
Proof. reflexivity. Qed.

(** Indexing and slicing a bracketed name. *)
Lemma get_bracket_last n c :
  String.get (String.length n) (n +:+ String c EmptyString) = Some c.
Proof. induction n as [|a n IH]; simpl; [done | exact IH]. Qed.

Lemma substring_bracket n c :
  String.substring 0 (String.length n) (n +:+ String c EmptyString) = n.
Proof. induction n as [|a n IH]; simpl; [done | by rewrite IH]. Qed.

Lemma length_bracket n c :
  String.length (n +:+ String c EmptyString) = S (String.length n).
Proof. induction n as [|a n IH]; simpl; [done | by rewrite IH]. Qed.

Lemma bracket_unfold n :
  "[" +:+ n +:+ "]" = String "[" (n +:+ String "]" EmptyString).
Proof. reflexivity. Qed.

Lemma is_bounded_bracket n :
  is_bounded ("[" +:+ n +:+ "]") "[" "]" = Ret true.
Proof.
  rewrite bracket_unfold.
  unfold is_bounded, at_, len, byte_eq. simpl String.get.
  rewrite bool_decide_eq_true_2 by (simpl; lia).
  simpl. rewrite length_bracket.
  rewrite bool_decide_eq_true_2 by lia.
  replace (Z.to_nat (Z.of_nat (S (S (String.length n))) - 1)) with (S (String.length n)) by lia.
  simpl. by rewrite get_bracket_last.
Qed.

Lemma slice_bracket n :
  slice ("[" +:+ n +:+ "]") 1 (len ("[" +:+ n +:+ "]") - 1) = Ret n.
Proof.
  rewrite bracket_unfold.
  unfold slice, len. simpl. rewrite length_bracket.
  rewrite bool_decide_eq_true_2 by lia.
  replace (Z.to_nat (Z.of_nat (S (S (String.length n))) - 1 - 1)) with (String.length n) by lia.
  change (Z.to_nat 1) with 1. simpl. by rewrite substring_bracket.
Qed.

End go_strings.

(** ** [_parse_line] is [lex] followed by [exec] *)

Section lexing.

Lemma bounded_by_pure s c c' st :
  bounded_by s c c' st = (is_bounded s c c', st).
Proof.
  unfold bounded_by, is_bounded, bind, lift, ret.
  destruct (at_ s 0) as [first|]; [|done].
  destruct (byte_eq first c); [|done].
  by destruct (at_ s (len s - 1)).
Qed.

Lemma _parse_line_lex line st : _parse_line line st = exec (lex line) st.
Proof.
  unfold _parse_line, lex.
  case_bool_decide; [|done].
  cbv zeta. case_bool_decide; [|done].
  unfold bind at 1. rewrite bounded_by_pure.
  destruct (is_bounded (TrimSpace line) "[" "]") as [[]|]; [| |done].
  - unfold lex_header, bind at 1, lift.
    destruct (slice (TrimSpace line) 1 (len (TrimSpace line) - 1)) as [sec_name|];
      [|done].
    by case_bool_decide.
  - unfold lex_key_value. cbv zeta.
    case_bool_decide; [done|].
    unfold bind at 1, lift.
    destruct (slice_to _ _) as [key|]; [|done].
    case_bool_decide; [done|].
    unfold bind at 1.
    destruct (slice_from _ _) as [value|]; [|done].
    unfold bind at 1. rewrite bounded_by_pure. unfold strip_quotes.
    destruct (is_bounded (TrimSpace value) dquote dquote) as [[]|]; [| |done].
    + unfold bind at 1. by destruct (slice (TrimSpace value) _ _).
    + done.
Qed.

Lemma lex_header_inv line sec_name :
  lex line = THeader sec_name → sec_name ≠ EmptyString.
Proof.
  unfold lex. case_bool_decide; [|done]. cbv zeta.
  case_bool_decide; [|done].
  destruct (is_bounded _ _ _) as [[]|]; [| |done].
  - unfold lex_header. destruct (slice _ _ _) as [n|]; [|done].
    case_bool_decide as Hn; [done|]. intros [= <-]. by rewrite len_0 in Hn.
  - unfold lex_key_value. cbv zeta. case_bool_decide; [done|].
    destruct (slice_to _ _); [|done]. case_bool_decide; [done|].
    destruct (slice_from _ _); [|done]. by destruct (strip_quotes _).
Qed.

Lemma lex_assign_inv line l key value :
  lex line = TAssign l key value →
  key ≠ EmptyString ∧ TrimSpace key = key ∧ l = TrimSpace line.
Proof.
  unfold lex. case_bool_decide; [|done]. cbv zeta.
  case_bool_decide; [|done].
  destruct (is_bounded _ _ _) as [[]|]; [| |done].
  - unfold lex_header. destruct (slice _ _ _) as [n|]; [|done].
    by case_bool_decide.
  - unfold lex_key_value. cbv zeta. case_bool_decide; [done|].
    destruct (slice_to _ _) as [k|]; [|done].
    case_bool_decide as Hk; [done|].
    destruct (slice_from _ _); [|done].
    destruct (strip_quotes _); [|done].
    intros [= <- <- <-]. rewrite len_0 in Hk.
    by rewrite TrimSpace_idemp.
Qed.

Lemma lex_bracket line sec_name :
  TrimSpace line = "[" +:+ sec_name +:+ "]" → sec_name ≠ EmptyString →
  lex line = THeader sec_name.
Proof.
  intros Hline Hname. unfold lex.
  rewrite bool_decide_eq_true_2; last first.
  { destruct line; [by rewrite TrimSpace_empty in Hline|]. unfold len. simpl. lia. }
  cbv zeta. rewrite Hline.
  rewrite bool_decide_eq_true_2 by (unfold len; simpl; lia).
  rewrite is_bounded_bracket. unfold lex_header. rewrite slice_bracket.
  rewrite bool_decide_eq_false_2; [done|]. by rewrite len_0.
Qed.

(** A line that reaches the quote test goes on as the test decides. *)
Lemma lex_key_value_line line key value :
  key_value line = Some (key, value) →
  lex line = match strip_quotes value with
             | Ret value' => TAssign (TrimSpace line) key value'
             | Panic why => TPanic why
             end.
Proof.
  unfold key_value, lex. case_bool_decide; [|done]. cbv zeta.
  case_bool_decide; [|done].
  destruct (is_bounded _ _ _) as [[]|]; [done| |done].
  unfold lex_key_value. cbv zeta. case_bool_decide; [done|].
  destruct (slice_to _ _) as [k|]; [|done].
  destruct (slice_from _ _) as [v|]; [|by case_bool_decide].
  case_bool_decide; [done|]. by intros [= <- <-].
Qed.

End lexing.

(** ** The two updates of the store *)

Section store.

Implicit Types (st : State) (p : nat) (s : Section).

Lemma open_section_old sec_name p st :
  sections (config st) !! sec_name = Some p →
  open_section sec_name st =
    (Ret (true, None),
     set_config (set_pstate {| in_sec := true; cur_sec := Some p |}) st).
Proof. intros H. unfold open_section, bind, gets, ret. simpl. by rewrite H. Qed.

Lemma open_section_new sec_name st :
  sections (config st) !! sec_name = None →
  open_section sec_name st =
    (Ret (true, None),
     set_config (set_pstate {| in_sec := true; cur_sec := Some (length (heap st)) |})
       (set_config (set_sections <[sec_name := length (heap st)]>)
          (set_heap (λ h, h ++ [{| name := sec_name; fields := ∅ |}]) st))).
Proof. intros H. unfold open_section, bind, gets, ret. simpl. by rewrite H. Qed.

Lemma assign_outside line key value st :
  in_sec (_pstate (config st)) = false →
  assign line key value st =
    (Ret (false, Some {| cle_line := line; cle_error := msg_no_section |}), st).
Proof. intros H. unfold assign, bind, gets, ret. simpl. by rewrite H. Qed.

Lemma assign_inside line key value st p s :
  in_sec (_pstate (config st)) = true →
  cur_sec (_pstate (config st)) = Some p →
  heap st !! p = Some s →
  assign line key value st =
    (Ret (true, None),
     set_heap (λ h, <[p := {| name := name s;
                              fields := <[key := value]> (fields s) |}]> h) st).
Proof.
  intros H1 H2 H3. unfold assign, bind, gets, ret. simpl. rewrite H1, H2. simpl.
  unfold store_field, modify, set_heap. by rewrite H3.
Qed.

Lemma wf_active st :
  wf st → in_sec (_pstate (config st)) = true →
  ∃ p s, cur_sec (_pstate (config st)) = Some p ∧ heap st !! p = Some s ∧
         cur_name st = Some (name s).
Proof.
  intros (_ & _ & H3) Hin. destruct (H3 Hin) as (p & Hp & [s Hs]).
  exists p, s. split_and!; [done..|].
  unfold cur_name. rewrite Hin, Hp. simpl. by rewrite Hs.
Qed.

Lemma cur_name_inactive st :
  in_sec (_pstate (config st)) = false → cur_name st = None.
Proof. intros H. unfold cur_name. by rewrite H. Qed.

Lemma cur_name_Some st sec : cur_name st = Some sec → in_sec (_pstate (config st)) = true.
Proof. unfold cur_name. by destruct (in_sec _). Qed.

(** A header line on a well-formed store. *)
Lemma open_section_step sec_name st :
  wf st →
  ∃ st1, open_section sec_name st = (Ret (true, None), st1) ∧
    wf st1 ∧ cur_name st1 = Some sec_name ∧
    (∀ sec k, field_of st1 sec k = field_of st sec k).
Proof.
  intros (W1 & W2 & W3).
  destruct (sections (config st) !! sec_name) as [p|] eqn:Hsec.
  - eexists. split; [by apply open_section_old|].
    destruct (W1 _ _ Hsec) as (s & Hs & Hname).
    split_and!.
    + split_and!; [done..|]. intros _. exists p. simpl. by rewrite Hs.
    + unfold cur_name. simpl. rewrite Hs. simpl. by f_equal.
    + done.
  - eexists. split; [by apply open_section_new|].
    split_and!.
    + split_and!; simpl.
      * intros n p. destruct (decide (sec_name = n)) as [<-|Hne].
        -- rewrite lookup_insert_eq. intros [= <-].
           exists {| name := sec_name; fields := ∅ |}. split; [|done].
           by rewrite lookup_app_r, Nat.sub_diag.
        -- rewrite lookup_insert_ne by done. intros (s & Hs & ?)%W1.
           exists s. split; [|done]. by apply lookup_app_l_Some.
      * intros p s Hp. apply lookup_app_Some in Hp as [Hp|[Hlen Hp]].
        -- specialize (W2 _ _ Hp). rewrite lookup_insert_ne; [done|].
           intros ->. congruence.
        -- destruct (p - length (heap st)) as [|k] eqn:Hk; [|by destruct k].
           injection Hp as <-. simpl. rewrite lookup_insert_eq. f_equal. lia.
      * intros _. eexists. split; [done|].
        rewrite lookup_app_r, Nat.sub_diag by done. by eexists.
    + unfold cur_name. simpl. by rewrite lookup_app_r, Nat.sub_diag.
    + intros sec k. unfold field_of. simpl.
      destruct (decide (sec_name = sec)) as [<-|Hne].
      * rewrite lookup_insert_eq, Hsec. simpl.
        by rewrite lookup_app_r, Nat.sub_diag.
      * rewrite lookup_insert_ne by done.
        destruct (sections (config st) !! sec) as [p|] eqn:Hp; [|done]. simpl.
        destruct (W1 _ _ Hp) as (s & Hs & _).
        by rewrite (lookup_app_l_Some _ _ _ _ Hs), Hs.
Qed.

(** A key/value line in an active section of a well-formed store. *)
Lemma assign_step line key value st sec :
  wf st → cur_name st = Some sec →
  ∃ st1, assign line key value st = (Ret (true, None), st1) ∧
    wf st1 ∧ cur_name st1 = Some sec ∧
    (∀ sec' k, field_of st1 sec' k =
       if decide ((sec', k) = (sec, key)) then Some value else field_of st sec' k).
Proof.
  intros Hwf Hcur. pose proof Hwf as (W1 & W2 & W3).
  pose proof (cur_name_Some _ _ Hcur) as Hin.
  destruct (wf_active _ Hwf Hin) as (p & s & Hp & Hs & Hname).
  assert (sec = name s) as -> by congruence.
  eexists. split; [by eapply assign_inside|].
  assert (Hlt : p < length (heap st)) by by eapply lookup_lt_Some.
  split_and!.
  - split_and!; simpl.
    + intros n q Hq. destruct (W1 _ _ Hq) as (s' & Hs' & Hn).
      destruct (decide (p = q)) as [<-|Hne].
      * rewrite list_lookup_insert_eq by done. eexists. split; [done|]. simpl. congruence.
      * rewrite list_lookup_insert_ne by done. eauto.
    + intros q s'. destruct (decide (p = q)) as [<-|Hne].
      * rewrite list_lookup_insert_eq by done. intros [= <-]. simpl. by apply W2.
      * rewrite list_lookup_insert_ne by done. apply W2.
    + intros _. exists p. split; [done|].
      rewrite list_lookup_insert_eq by done. by eexists.
  - unfold cur_name. simpl. rewrite Hin, Hp. simpl.
    by rewrite list_lookup_insert_eq.
  - intros sec' k. unfold field_of. simpl.
    destruct (sections (config st) !! sec') as [q|] eqn:Hq; simpl.
    + destruct (W1 _ _ Hq) as (s' & Hs' & Hn).
      destruct (decide (p = q)) as [<-|Hne].
      * rewrite list_lookup_insert_eq by done. simpl.
        assert (s' = s) as -> by congruence. subst sec'.
        rewrite Hs. simpl.
        destruct (decide (key = k)) as [<-|Hk].
        -- rewrite lookup_insert_eq. by rewrite decide_True.
        -- rewrite lookup_insert_ne by done. rewrite decide_False; [done|congruence].
      * rewrite list_lookup_insert_ne by done.
        rewrite decide_False; [done|]. intros [= -> ->].
        specialize (W2 _ _ Hs). congruence.
    + rewrite decide_False; [done|]. intros [= -> ->].
      specialize (W2 _ _ Hs). congruence.
Qed.

End store.

(** ** Sequences of lines *)

Section lines.

Implicit Types (st : State) (ls : list string).

Lemma same_files_refl st : same_files st st.
Proof. done. Qed.

Lemma same_files_trans st st1 st2 :
  same_files st st1 → same_files st1 st2 → same_files st st2.
Proof. unfold same_files. intros (?&?&?) (?&?&?). split_and!; congruence. Qed.

(** [_parse_line] touches neither the files nor the console. *)
Lemma _parse_line_same_files line st r st1 :
  _parse_line line st = (r, st1) → same_files st st1.
Proof.
  rewrite _parse_line_lex. destruct (lex line) as [|n|e|l k v|w]; simpl.
  - by intros [= _ <-].
  - unfold open_section, bind, gets, ret. simpl.
    destruct (sections (config st) !! n); by intros [= _ <-].
  - by intros [= _ <-].
  - unfold assign, bind, gets, ret. simpl.
    destruct (in_sec _); simpl; [|by intros [= _ <-]].
    destruct (cur_sec _); simpl; by intros [= _ <-].
  - by intros [= _ <-].
Qed.

Lemma last_write_nil sec key : last_write sec key [] = None.
Proof. done. Qed.

Lemma last_write_cons sec key e evs :
  last_write sec key (e :: evs) =
    match last_write sec key evs with
    | Some v => Some v
    | None => if decide (e.1 = (sec, key)) then Some e.2 else None
    end.
Proof.
  unfold last_write. rewrite filter_cons.
  destruct (decide (e.1 = (sec, key))) as [He|He];
    [|by destruct (last (filter _ evs))].
  destruct (filter _ evs) as [|e' evs'] eqn:Hf; [done|].
  rewrite last_cons. by destruct (last (e' :: evs')).
Qed.

(** A successful line on a well-formed store: the store stays well
    formed, and the fields are what they were, but for the assignment
    the line makes. *)
Lemma _parse_line_step line st e st1 :
  wf st → _parse_line line st = (Ret (true, e), st1) →
  wf st1 ∧
  ∀ ls sec key,
    match last_write sec key (assignments (cur_name st1) ls) with
    | Some v => Some v
    | None => field_of st1 sec key
    end =
    match last_write sec key (assignments (cur_name st) (line :: ls)) with
    | Some v => Some v
    | None => field_of st sec key
    end.
Proof.
  intros Hwf. rewrite _parse_line_lex. simpl assignments.
  destruct (lex line) as [|n|e'|l k v|w] eqn:Hlex; simpl.
  - by intros [= _ <-].
  - destruct (open_section_step n st Hwf) as (st' & -> & Hwf' & Hcur & Hf).
    intros [= _ <-]. split; [done|]. intros ls sec key.
    by rewrite Hcur, Hf.
  - done.
  - destruct (in_sec (_pstate (config st))) eqn:Hin.
    + destruct (wf_active _ Hwf Hin) as (p & s & Hp & Hs & Hcur).
      destruct (assign_step l k v st _ Hwf Hcur) as (st' & -> & Hwf' & Hcur' & Hf).
      intros [= _ <-]. split; [done|]. intros ls sec key.
      rewrite Hcur, Hcur', last_write_cons, Hf. simpl.
      destruct (last_write _ _ _); [done|].
      by repeat case_decide; simplify_eq.
    + by rewrite assign_outside.
  - done.
Qed.

(** A line that is not parsed with success leaves the state as it was. *)
Lemma _parse_line_unchanged line st r st1 :
  _parse_line line st = (r, st1) → (∀ e, r ≠ Ret (true, e)) → st1 = st.
Proof.
  rewrite _parse_line_lex. destruct (lex line) as [|n|e|l k v|w]; simpl.
  - by intros [= _ <-].
  - unfold open_section, bind, gets, ret. simpl.
    destruct (sections (config st) !! n); intros [= <- _] H; by destruct (H None).
  - by intros [= _ <-].
  - unfold assign, bind, gets, ret. simpl.
    destruct (in_sec _); simpl; [|by intros [= _ <-]].
    destruct (cur_sec _); simpl; [|by intros [= _ <-]].
    intros [= <- _] H. by destruct (H None).
  - by intros [= _ <-].
Qed.

(** [_parse_line] keeps the store well formed, however it returns. *)
Lemma _parse_line_wf line st r st1 :
  wf st → _parse_line line st = (r, st1) → wf st1.
Proof.
  intros Hwf Hl. destruct r as [[[] e]|w].
  - by destruct (_parse_line_step _ _ _ _ Hwf Hl).
  - by rewrite (_parse_line_unchanged _ _ _ _ Hl).
  - by rewrite (_parse_line_unchanged _ _ _ _ Hl).
Qed.

Lemma run_lines_app ls1 ls2 st :
  run_lines (ls1 ++ ls2) st = run_lines ls1 st ≫= run_lines ls2.
Proof.
  revert st. induction ls1 as [|l ls1 IH]; intros st; simpl; [done|].
  destruct (_parse_line l st) as [[[[] ?]|] st1]; simpl; auto.
Qed.

Lemma run_lines_same_files ls st st' :
  run_lines ls st = Some st' → same_files st st'.
Proof.
  revert st. induction ls as [|l ls IH]; intros st; simpl.
  - by intros [= <-].
  - destruct (_parse_line l st) as [[[[] ?]|] st1] eqn:Hl; [|done..].
    intros H. eapply same_files_trans; [|by apply IH].
    by eapply _parse_line_same_files.
Qed.

(** Last write wins, on any well-formed store. *)
Lemma run_lines_last_write ls st st' :
  wf st → run_lines ls st = Some st' →
  wf st' ∧
  ∀ sec key,
    field_of st' sec key =
      match last_write sec key (assignments (cur_name st) ls) with
      | Some v => Some v
      | None => field_of st sec key
      end.
Proof.
  revert st. induction ls as [|l ls IH]; intros st Hwf; simpl run_lines.
  - by intros [= <-].
  - destruct (_parse_line l st) as [[[[] e]|] st1] eqn:Hl; [|done..].
    intros Hrun. destruct (_parse_line_step _ _ _ _ Hwf Hl) as [Hwf1 Hstep].
    destruct (IH _ Hwf1 Hrun) as [Hwf' Hf]. split; [done|].
    intros sec key. by rewrite Hf, Hstep.
Qed.

End lines.

(** ** Files: reading, opening, closing *)

Section files.

Implicit Types (st : State) (order : list string).

Lemma same_store_refl st : same_store st st.
Proof. done. Qed.

Lemma same_store_trans st st1 st2 :
  same_store st st1 → same_store st1 st2 → same_store st st2.
Proof. unfold same_store. intros (?&?&?&?) (?&?&?&?). split_and!; congruence. Qed.

Lemma _parse_line_empty st : _parse_line EmptyString st = (Ret (true, None), st).
Proof. reflexivity. Qed.

(** Whatever the loop of [_parse_file] returns, it keeps the files. *)
Lemma _parse_file_loop_same_files fname br st r st1 :
  _parse_file_loop fname br st = (r, st1) → same_files st st1.
Proof.
  revert st. induction br as [|[line err] br IH]; intros st; simpl.
  - unfold _parse_file_round, bind. rewrite _parse_line_empty. simpl.
    by intros [= _ <-].
  - unfold _parse_file_round, bind.
    destruct err as [e|].
    + destruct e; simpl;
        try (unfold console_log, modify; simpl; by intros [= _ <-]).
      destruct (_parse_line line st) as [[[[] e]|] st'] eqn:Hl; simpl;
        intros [= _ <-]; by eapply _parse_line_same_files.
    + destruct (_parse_line line st) as [[[[] e]|] st'] eqn:Hl; simpl.
      * intros H. eapply same_files_trans; [|by eapply IH].
        by eapply _parse_line_same_files.
      * intros [= _ <-]. by eapply _parse_line_same_files.
      * intros [= _ <-]. by eapply _parse_line_same_files.
Qed.

(** When the loop reports success, it has run [_parse_line] on the
    lines of the reader, one after the other, each with success. *)
Lemma _parse_file_loop_success fname br st e st1 :
  _parse_file_loop fname br st = (Ret (true, e), st1) →
  run_lines (fed_lines br) st = Some st1.
Proof.
  revert st. induction br as [|[line err] br IH]; intros st; simpl.
  - unfold _parse_file_round, bind. rewrite _parse_line_empty. simpl.
    by intros [= _ <-].
  - unfold _parse_file_round, bind.
    destruct err as [err|].
    + destruct err; simpl; try (unfold console_log, modify; simpl; done).
      destruct (_parse_line line st) as [[[[] e']|] st'] eqn:Hl; simpl; [|done..].
      by intros [= _ <-].
    + destruct (_parse_line line st) as [[[[] e']|] st'] eqn:Hl; simpl; [|done..].
      rewrite Hl. apply IH.
Qed.

Lemma _parse_file_same_files fname file st r st1 :
  _parse_file fname file st = (r, st1) → same_files st st1.
Proof.
  destruct file as [fd|]; simpl; [|by intros [= _ <-]].
  unfold bind, gets. simpl. destruct (ftable st !! fd) as [f|].
  - apply _parse_file_loop_same_files.
  - by intros [= _ <-].
Qed.

Lemma file_lines_same st st1 fname :
  same_files st st1 → file_lines st1 fname = file_lines st fname.
Proof. intros (H1 & H2 & _). unfold file_lines. by rewrite H1, H2. Qed.

Lemma lines_parsed_same st st1 order :
  same_files st st1 → lines_parsed order st1 = lines_parsed order st.
Proof.
  intros H. unfold lines_parsed. f_equal. apply list_fmap_ext.
  intros _ k _. by apply file_lines_same.
Qed.

Lemma Parse_conf_body_same_files fname st r st1 :
  Parse_conf_body fname st = (r, st1) → same_files st st1.
Proof.
  unfold Parse_conf_body, bind, gets. simpl.
  destruct (conf_files (config st) !! fname) as [fobj|]; [|by intros [= _ <-]].
  destruct (_parse_file fname fobj st) as [[[[] e]|] st'] eqn:Hf; simpl;
    intros [= _ <-]; by eapply _parse_file_same_files.
Qed.

Lemma Parse_conf_body_success fname st st1 :
  Parse_conf_body fname st = (Ret None, st1) →
  run_lines (file_lines st fname) st = Some st1.
Proof.
  unfold Parse_conf_body, file_lines, bind, gets. simpl.
  destruct (conf_files (config st) !! fname) as [[fd|]|]; simpl.
  - unfold bind, gets. simpl. destruct (ftable st !! fd) as [f|]; simpl; [|done].
    destruct (_parse_file_loop fname (reads f) st) as [[[[] e]|] st'] eqn:Hf;
      simpl; [|done..].
    intros [= <-]. by eapply _parse_file_loop_success.
  - by intros [= <-].
  - by intros [= <-].
Qed.

Lemma Parse_conf_loop_same_files order st r st1 :
  for_range order Parse_conf_body st = (r, st1) → same_files st st1.
Proof.
  revert st. induction order as [|k order IH]; intros st; simpl.
  - by intros [= _ <-].
  - unfold bind.
    destruct (Parse_conf_body k st) as [[[x|]|] st'] eqn:Hk; simpl.
    + intros [= _ <-]. by eapply Parse_conf_body_same_files.
    + intros H. eapply same_files_trans; [|by eapply IH].
      by eapply Parse_conf_body_same_files.
    + intros [= _ <-]. by eapply Parse_conf_body_same_files.
Qed.

(** When the loop of [Parse_conf] runs to its end, it has fed the lines
    of the files to [_parse_line] in the order of the enumeration. *)
Lemma Parse_conf_loop_success order st st1 :
  for_range order Parse_conf_body st = (Ret None, st1) →
  run_lines (lines_parsed order st) st = Some st1.
Proof.
  revert st. induction order as [|k order IH]; intros st; simpl.
  - by intros [= <-].
  - unfold bind.
    destruct (Parse_conf_body k st) as [[[x|]|] st'] eqn:Hk; simpl; [done| |done].
    intros H.
    change (lines_parsed (k :: order) st)
      with (file_lines st k ++ lines_parsed order st).
    rewrite run_lines_app, (Parse_conf_body_success _ _ _ Hk). simpl.
    rewrite <- (lines_parsed_same st st') by by eapply Parse_conf_body_same_files.
    by apply IH.
Qed.

End files.

(** ** Opening and closing *)

Section open_close.

Implicit Types (st : State) (order : list string).

(** The three ways through the body of the loop of [_open_files]. *)
Lemma _open_files_body_cases fpath st r st1 :
  _open_files_body fpath st = (r, st1) →
  (∃ rs, conf_files (config st) !! fpath = Some None ∧
         open_result (disk st) fpath = inr rs ∧ r = Ret None ∧
         st1 = set_config (set_conf_files <[fpath := Some (length (ftable st))]>)
                 (set_ftable (λ t, t ++ [{| fpath_of := fpath; reads := rs;
                                            closes := 0 |}]) st)) ∨
  (∃ e msg, r = Ret (Some (false, Some e)) ∧
            st1 = set_console (λ out, out ++ [msg]) st) ∨
  (conf_files (config st) !! fpath ≠ Some None ∧ r = Ret None ∧ st1 = st).
Proof.
  unfold _open_files_body, bind, gets. simpl.
  destruct (conf_files (config st) !! fpath) as [[fd|]|] eqn:Hk.
  - intros [= <- <-]. right. by right.
  - unfold os_Open. destruct (open_result (disk st) fpath) as [reason|rs] eqn:Hd;
      simpl.
    + intros [= <- <-]. right. left. by eexists _, _.
    + intros [= <- <-]. left. by exists rs.
  - intros [= <- <-]. right. by right.
Qed.

Lemma _open_files_loop_frame order st r st1 :
  for_range order _open_files_body st = (r, st1) →
  same_store st st1 ∧ (∃ x, r = Ret x) ∧
  (∀ k, is_Some (conf_files (config st1) !! k) ↔
        is_Some (conf_files (config st) !! k)).
Proof.
  revert st. induction order as [|k order IH]; intros st; simpl.
  - intros [= <- <-]. split_and!; [done|by eexists|done].
  - unfold bind. destruct (_open_files_body k st) as [r' st'] eqn:Hk.
    apply _open_files_body_cases in Hk
      as [(rs & Hc & Hd & -> & ->)|[(e & msg & -> & ->)|(Hc & -> & ->)]].
    + intros (Hs & Hr & Hdom)%IH. split_and!; [done..|].
      intros k'. rewrite Hdom. simpl.
      destruct (decide (k = k')) as [<-|Hne].
      * rewrite lookup_insert_eq, Hc. split; by eexists.
      * by rewrite lookup_insert_ne.
    + intros [= <- <-]. split_and!; [done|by eexists|done].
    + apply IH.
Qed.

Lemma files_owned_open st fpath rs :
  conf_files (config st) !! fpath = Some None →
  files_owned st →
  files_owned
    (set_config (set_conf_files <[fpath := Some (length (ftable st))]>)
       (set_ftable (λ t, t ++ [{| fpath_of := fpath; reads := rs; closes := 0 |}]) st)).
Proof.
  intros Hc (O1 & O2 & O3). split_and!; simpl.
  - intros k fd. rewrite length_app. simpl.
    destruct (decide (fpath = k)) as [<-|Hne].
    + rewrite lookup_insert_eq. intros [= <-]. lia.
    + rewrite lookup_insert_ne by done. intros ?%O1. lia.
  - intros fd. rewrite length_app. simpl. intros Hfd.
    destruct (decide (fd = length (ftable st))) as [->|Hne].
    + exists fpath. by rewrite lookup_insert_eq.
    + destruct (O2 fd) as [k Hk]; [lia|]. exists k.
      rewrite lookup_insert_ne; [done|]. intros <-. congruence.
  - intros k k' fd.
    destruct (decide (fpath = k)) as [<-|Hne];
      destruct (decide (fpath = k')) as [<-|Hne']; [done|..].
    + rewrite lookup_insert_eq, lookup_insert_ne by done.
      intros [= <-] ?%O1. lia.
    + rewrite lookup_insert_eq, lookup_insert_ne by done.
      intros ?%O1 [= <-]. lia.
    + rewrite !lookup_insert_ne by done. apply O3.
Qed.

(** [_open_files] keeps every open file under exactly one path, and
    opens files that nobody has closed. *)
Lemma _open_files_loop_owned order st r st1 :
  for_range order _open_files_body st = (r, st1) →
  files_owned st → Forall (λ f, closes f = 0) (ftable st) →
  files_owned st1 ∧ Forall (λ f, closes f = 0) (ftable st1).
Proof.
  revert st. induction order as [|k order IH]; intros st; simpl.
  - by intros [= <- <-].
  - unfold bind. destruct (_open_files_body k st) as [r' st'] eqn:Hk.
    apply _open_files_body_cases in Hk
      as [(rs & Hc & Hd & -> & ->)|[(e & msg & -> & ->)|(Hc & -> & ->)]].
    + intros H Ho Hz. eapply IH; [done|by apply files_owned_open|].
      simpl. apply Forall_app. split; [done|]. by constructor.
    + by intros [= <- <-].
    + apply IH.
Qed.

(** When no open fails, the files are opened key after key, in the
    order of the enumeration. *)
Lemma _open_files_loop_opened order st st1 :
  for_range order _open_files_body st = (Ret None, st1) →
  NoDup order →
  (∀ k, k ∈ order → conf_files (config st) !! k = Some None) →
  opened st1 = opened st ++ order.
Proof.
  revert st. induction order as [|k order IH]; intros st; simpl.
  - intros [= <-] _ _. by rewrite app_nil_r.
  - unfold bind. destruct (_open_files_body k st) as [r' st'] eqn:Hk.
    intros H [Hk' Hnd]%NoDup_cons Hnil.
    apply _open_files_body_cases in Hk
      as [(rs & Hc & Hd & -> & ->)|[(e & msg & -> & ->)|(Hc & -> & ->)]].
    + rewrite (IH _ H Hnd).
      * unfold opened. simpl. rewrite fmap_app. simpl. by rewrite <- app_assoc.
      * intros k0 Hk0. simpl. rewrite lookup_insert_ne; [|by intros <-].
        apply Hnil. by right.
    + done.
    + destruct Hc. apply Hnil. by left.
Qed.

(** [finalize] calls [Close] once for every key that holds the file. *)
Lemma finalize_loop order st :
  ∃ st1, for_range order finalize_body st = (Ret None, st1) ∧
    config st1 = config st ∧ heap st1 = heap st ∧ disk st1 = disk st ∧
    console st1 = console st ∧
    length (ftable st1) = length (ftable st) ∧
    ∀ fd f, ftable st !! fd = Some f →
      ftable st1 !! fd =
        Some {| fpath_of := fpath_of f; reads := reads f;
                closes := closes f + holders st fd order |}.
Proof.
  revert st. induction order as [|k order IH]; intros st; simpl.
  - exists st. split_and!; [done..|]. intros fd [] ?. unfold holders. simpl.
    by rewrite Nat.add_0_r.
  - unfold bind, finalize_body at 1, bind, gets. simpl.
    destruct (conf_files (config st) !! k) as [[fd0|]|] eqn:Hk; simpl.
    + destruct (IH (set_ftable (alter closed fd0) st))
        as (st1 & -> & Hc & Hh & Hd & Ho & Hlen & Hf).
      exists st1. split_and!; [done..| |].
      { rewrite Hlen. simpl. apply length_alter. }
      intros fd f Hfd. unfold holders. rewrite filter_cons.
      destruct (decide (fd0 = fd)) as [->|Hne].
      * rewrite decide_True by done. simpl.
        erewrite Hf; [|simpl; by rewrite list_lookup_alter_eq, Hfd].
        unfold holders. simpl. do 2 f_equal. lia.
      * rewrite decide_False by congruence.
        erewrite Hf; [|simpl; by rewrite list_lookup_alter_ne]. done.
    + destruct (IH st) as (st1 & -> & Hc & Hh & Hd & Ho & Hlen & Hf).
      exists st1. split_and!; [done..|].
      intros fd f Hfd. unfold holders. rewrite filter_cons.
      rewrite decide_False by congruence. by apply Hf.
    + destruct (IH st) as (st1 & -> & Hc & Hh & Hd & Ho & Hlen & Hf).
      exists st1. split_and!; [done..|].
      intros fd f Hfd. unfold holders. rewrite filter_cons.
      rewrite decide_False by congruence. by apply Hf.
Qed.

Lemma filter_unique {A} (P : A → Prop) `{!∀ x, Decision (P x)} (l : list A) x :
  NoDup l → x ∈ l → (∀ y, y ∈ l → P y ↔ y = x) → length (filter P l) = 1.
Proof.
  induction l as [|a l IH]; intros Hnd Hx HP.
  - by apply elem_of_nil in Hx.
  - apply NoDup_cons in Hnd as [Ha Hnd]. rewrite filter_cons.
    destruct (decide (P a)) as [Pa|Pa].
    + apply HP in Pa as ->; [|left]. simpl. f_equal.
      destruct (filter P l) as [|y l'] eqn:Hf; [done|].
      assert (Hy : y ∈ filter P l) by (rewrite Hf; left).
      apply list_elem_of_filter in Hy as [Py Hy].
      apply HP in Py; [|by right]. by subst y.
    + apply elem_of_cons in Hx as [->|Hx].
      * destruct Pa. apply HP; [left | done].
      * apply IH; [done..|]. intros y Hy. apply HP. by right.
Qed.

(** Under [files_owned], an enumeration of the keys meets every open
    file exactly once. *)
Lemma holders_one st fd order :
  files_owned st → range_order (conf_files (config st)) order →
  fd < length (ftable st) → holders st fd order = 1.
Proof.
  intros (O1 & O2 & O3) [Hnd Hord] Hfd. destruct (O2 fd Hfd) as [k Hk].
  unfold holders. apply (filter_unique _ _ k); [done| |].
  - apply Hord. by rewrite Hk.
  - intros y _. split; [intros Hy; by eapply O3 | by intros ->].
Qed.

End open_close.

(** ** [Parse_conf] as a whole *)

Section parse.

Implicit Types (st : State) (order : list string).

Lemma for_range_Some {R} (P : R → Prop) order (body : string → M (option R)) st x st1 :
  (∀ k st r st', body k st = (Ret (Some r), st') → P r) →
  for_range order body st = (Ret (Some x), st1) → P x.
Proof.
  intros Hbody. revert st. induction order as [|k order IH]; intros st; simpl.
  - done.
  - unfold bind. destruct (body k st) as [[[r|]|] st'] eqn:Hk; simpl.
    + intros [= <- <-]. by eapply Hbody.
    + apply IH.
    + done.
Qed.

Lemma _open_files_body_false k st r st' :
  _open_files_body k st = (Ret (Some r), st') → r.1 = false.
Proof.
  intros H. apply _open_files_body_cases in H
    as [(rs & _ & _ & [=] & _)|[(e & msg & [= ->] & _)|(_ & [=] & _)]].
  done.
Qed.

Lemma Parse_conf_body_false k st r st' :
  Parse_conf_body k st = (Ret (Some r), st') → r.1 = false.
Proof.
  unfold Parse_conf_body, bind, gets. simpl.
  destruct (conf_files (config st) !! k) as [fobj|]; [|done].
  destruct (_parse_file k fobj st) as [[[[] e]|] st1]; simpl; [done| |done].
  by intros [= <- <-].
Qed.

Lemma finalize_run order st :
  ∃ st1, finalize order st = (Ret tt, st1) ∧
         for_range order finalize_body st = (Ret None, st1).
Proof.
  destruct (finalize_loop order st) as (st1 & H & _).
  exists st1. split; [|done]. unfold finalize, bind. by rewrite H.
Qed.

(** A successful [Parse_conf] is: every open succeeds, every line of
    every file is parsed with success, every key is finalized. *)
Lemma Parse_conf_success order1 order2 order3 st e st' :
  Parse_conf order1 order2 order3 st = (Ret (true, e), st') →
  ∃ st1 st2,
    for_range order1 _open_files_body st = (Ret None, st1) ∧
    for_range order2 Parse_conf_body st1 = (Ret None, st2) ∧
    for_range order3 finalize_body st2 = (Ret None, st').
Proof.
  unfold Parse_conf, _open_files, bind at 1, bind at 1.
  destruct (for_range order1 _open_files_body st) as [[[x|]|] st1] eqn:H1;
    simpl; [| |done].
  - pose proof (for_range_Some (λ r, r.1 = false) _ _ _ _ _
                  _open_files_body_false H1) as Hx.
    destruct x as [b e']. simpl in Hx. subst b. simpl. unfold defer. simpl.
    destruct (finalize_run order3 st1) as (st3 & -> & _). done.
  - unfold defer, bind.
    destruct (for_range order2 Parse_conf_body st1) as [[[x|]|] st2] eqn:H2; simpl.
    + pose proof (for_range_Some (λ r, r.1 = false) _ _ _ _ _
                    Parse_conf_body_false H2) as Hx.
      destruct x as [b e']. simpl in Hx. subst b.
      destruct (finalize_run order3 st2) as (st3 & -> & _). done.
    + destruct (finalize_run order3 st2) as (st3 & -> & Hfin).
      intros [= _ <-]. by exists st1, st2.
    + destruct (finalize_run order3 st2) as (st3 & -> & _). done.
Qed.

(** Whatever [Parse_conf] returns: the opening loop, then a body that
    keeps the files, then the finalizing loop. *)
Lemma Parse_conf_phases order1 order2 order3 st r st' :
  Parse_conf order1 order2 order3 st = (r, st') →
  ∃ r1 st1 st2,
    for_range order1 _open_files_body st = (r1, st1) ∧
    same_files st1 st2 ∧
    for_range order3 finalize_body st2 = (Ret None, st').
Proof.
  unfold Parse_conf, _open_files, bind at 1, bind at 1.
  destruct (for_range order1 _open_files_body st) as [r1 st1] eqn:H1.
  destruct (_open_files_loop_frame _ _ _ _ H1) as (_ & [x ->] & _).
  assert (Hdefer : ∀ (body : M (bool * option error)) ,
    (∀ r2 st2, body st1 = (r2, st2) → same_files st1 st2) →
    defer (finalize order3) body st1 = (r, st') →
    ∃ st2, same_files st1 st2 ∧
           for_range order3 finalize_body st2 = (Ret None, st')).
  { intros body Hbody. unfold defer.
    destruct (body st1) as [r2 st2] eqn:Hb.
    destruct (finalize_run order3 st2) as (st3 & -> & Hfin).
    intros [= _ <-]. exists st2. split; [by eapply Hbody | done]. }
  destruct x as [[b e]|]; simpl.
  - intros H. apply Hdefer in H as (st2 & ? & ?); [by eexists _, _, _|].
    destruct b; simpl.
    + intros r2 st2. unfold bind.
      destruct (for_range order2 Parse_conf_body st1) as [[[y|]|] st2'] eqn:H2;
        simpl; intros [= _ <-]; by eapply Parse_conf_loop_same_files.
    + by intros r2 st2 [= _ <-].
  - intros H. apply Hdefer in H as (st2 & ? & ?); [by eexists _, _, _|].
    intros r2 st2. unfold bind.
    destruct (for_range order2 Parse_conf_body st1) as [[[y|]|] st2'] eqn:H2;
      simpl; intros [= _ <-]; by eapply Parse_conf_loop_same_files.
Qed.

Lemma NewConfig_lookup files k :
  conf_files (NewConfig files) !! k = if decide (k ∈ files) then Some None else None.
Proof.
  unfold NewConfig. simpl.
  assert (H : ∀ (m : gmap string (option nat)),
    foldl (λ m file, <[file := None]> m) m files !! k =
      if decide (k ∈ files) then Some None else m !! k).
  { induction files as [|f files IH]; intros m; simpl foldl.
    - destruct (decide (k ∈ [])) as [?%elem_of_nil|]; done.
    - rewrite IH. destruct (decide (k ∈ files)) as [Hk|Hk].
      + rewrite decide_True; [done | by right].
      + destruct (decide (f = k)) as [->|Hne].
        * rewrite lookup_insert_eq. rewrite decide_True; [done | left].
        * rewrite lookup_insert_ne by done. rewrite decide_False; [done|].
          intros [->|?]%elem_of_cons; done. }
  rewrite H. by case_decide.
Qed.

(** The enumerations of the keys of a fresh [Config]: the distinct
    paths, in any order. *)
Lemma range_order_NewConfig files order :
  range_order (conf_files (NewConfig files)) order ↔
  NoDup order ∧ ∀ k, k ∈ order ↔ k ∈ files.
Proof.
  unfold range_order. split; intros [Hnd H]; (split; [done|]); intros k;
    rewrite H, NewConfig_lookup; case_decide; split; try done;
    by intros [? ?].
Qed.

Lemma range_order_NewConfig_perm files order :
  order ≡ₚ remove_dups files → range_order (conf_files (NewConfig files)) order.
Proof.
  intros H. apply range_order_NewConfig. split.
  - rewrite H. apply NoDup_remove_dups.
  - intros k. by rewrite H, elem_of_remove_dups.
Qed.

Lemma files_owned_boot d files : files_owned (boot d files).
Proof.
  unfold files_owned. change (config (boot d files)) with (NewConfig files).
  change (ftable (boot d files)) with (@nil File).
  split_and!.
  - intros k fd. rewrite NewConfig_lookup. by case_decide.
  - intros fd. simpl. lia.
  - intros k k' fd. rewrite NewConfig_lookup. by case_decide.
Qed.

Lemma wf_boot d files : wf (boot d files).
Proof. split_and!; simpl; [intros n p; by rewrite lookup_empty| done..]. Qed.

Lemma wf_same_store st st1 : same_store st st1 → wf st → wf st1.
Proof. unfold wf. intros (-> & -> & -> & _). done. Qed.

Lemma field_of_Get st sec key v :
  field_of st sec key = Some v → Get sec key st = (Ret (v, None), st).
Proof.
  unfold field_of, Get, bind, gets. simpl.
  destruct (sections (config st) !! sec) as [p|]; simpl; [|done].
  destruct (heap st !! p) as [s|]; simpl; [|done].
  by intros ->.
Qed.

Lemma finalize_lines_parsed order3 st2 st' order :
  for_range order3 finalize_body st2 = (Ret None, st') →
  lines_parsed order st' = lines_parsed order st2 ∧
  opened st' = opened st2 ∧
  (∀ sec key, field_of st' sec key = field_of st2 sec key).
Proof.
  intros H. destruct (finalize_loop order3 st2)
    as (st3 & H3 & Hc & Hh & Hd & Ho & Hlen & Hf).
  rewrite H in H3. injection H3 as <-.
  assert (Hlook : ∀ fd, ftable st' !! fd = closed_by st2 order3 fd <$> ftable st2 !! fd).
  { intros fd. destruct (ftable st2 !! fd) as [f|] eqn:Hfd; simpl.
    - by apply Hf.
    - apply lookup_ge_None. apply lookup_ge_None in Hfd. lia. }
  split_and!.
  - unfold lines_parsed. f_equal. apply list_fmap_ext. intros _ k _.
    unfold file_lines. rewrite Hc.
    destruct (conf_files (config st2) !! k) as [[fd|]|]; [|done..].
    rewrite Hlook. by destruct (ftable st2 !! fd).
  - unfold opened. apply list_eq. intros fd. rewrite !list_lookup_fmap, Hlook.
    by destruct (ftable st2 !! fd).
  - intros sec key. unfold field_of. by rewrite Hc, Hh.
Qed.

End parse.

(** * The claims *)

Section claims.

Implicit Types (st : State) (order : list string).

(** C1, as stated, fails.  [NewConfig] keeps the paths as the keys of a
    map, and [range] over a map follows no fixed order: for the paths
    [a], [b] the enumeration [b], [a] is one a run may take; the files
    are then opened in that order, and the value of [k] in [a] overwrites
    the one in [b], although [b] comes last in the list. *)
Lemma files_not_in_list_order :
  let st' := (Parse_conf ["b"; "a"] ["b"; "a"] ["b"; "a"] (boot disk_ab ["a"; "b"])).2 in
  range_order (conf_files (NewConfig ["a"; "b"])) ["b"; "a"] ∧
  (Parse_conf ["b"; "a"] ["b"; "a"] ["b"; "a"] (boot disk_ab ["a"; "b"])).1
    = Ret (true, None) ∧
  opened st' = ["b"; "a"] ∧
  opened st' ≠ ["a"; "b"] ∧
  (Get "s" "k" st').1 = Ret ("1", None).
Proof.
  split_and!.
  - apply range_order_NewConfig_perm, perm_swap.
  - by vm_compute.
  - by vm_compute.
  - by vm_compute.
  - by vm_compute.
Qed.

(** C1, amended: [Parse_conf] opens the files in the order in which
    [range] enumerates the keys of [conf_files], and parses them in the
    order of a second such enumeration; each enumeration holds every
    distinct path of the list once, in an order of its own. *)
Theorem files_in_range_order d files order1 order2 order3 st' :
  range_order (conf_files (NewConfig files)) order1 →
  range_order (conf_files (NewConfig files)) order2 →
  Parse_conf order1 order2 order3 (boot d files) = (Ret (true, None), st') →
  opened st' = order1 ∧
  order1 ≡ₚ remove_dups files ∧ order2 ≡ₚ remove_dups files ∧
  ∃ st1 st2,
    _open_files order1 (boot d files) = (Ret (true, None), st1) ∧
    run_lines (lines_parsed order2 st') st1 = Some st2 ∧
    finalize order3 st2 = (Ret tt, st').
Proof.
  intros H1%range_order_NewConfig H2%range_order_NewConfig Hparse.
  destruct H1 as [Hnd1 Hin1], H2 as [Hnd2 Hin2].
  apply Parse_conf_success in Hparse as (st1 & st2 & Hopen & Hloop & Hfin).
  destruct (finalize_lines_parsed _ _ _ order2 Hfin) as (Hlines & Hopened & _).
  pose proof (Parse_conf_loop_same_files _ _ _ _ Hloop) as Hsame.
  split_and!.
  - rewrite Hopened. unfold opened. destruct Hsame as (_ & -> & _).
    apply (_open_files_loop_opened _ _ _ Hopen Hnd1).
    intros k Hk. change (config (boot d files)) with (NewConfig files).
    rewrite NewConfig_lookup, decide_True; [done|]. by apply Hin1.
  - apply NoDup_Permutation; [done | apply NoDup_remove_dups |].
    intros k. by rewrite Hin1, elem_of_remove_dups.
  - apply NoDup_Permutation; [done | apply NoDup_remove_dups |].
    intros k. by rewrite Hin2, elem_of_remove_dups.
  - exists st1, st2. split_and!.
    + unfold _open_files, bind. by rewrite Hopen.
    + rewrite Hlines, (lines_parsed_same _ _ _ Hsame).
      by apply Parse_conf_loop_success.
    + unfold finalize, bind. by rewrite Hfin.
Qed.

Lemma files_in_range_order_witness :
  let st' := (Parse_conf ["b"; "a"] ["b"; "a"] ["a"; "b"] (boot disk_ab ["a"; "b"])).2 in
  opened st' = ["b"; "a"] ∧
  ["b"; "a"] ≡ₚ remove_dups ["a"; "b"] ∧ ["b"; "a"] ≡ₚ remove_dups ["a"; "b"] ∧
  ∃ st1 st2,
    _open_files ["b"; "a"] (boot disk_ab ["a"; "b"]) = (Ret (true, None), st1) ∧
    run_lines (lines_parsed ["b"; "a"] st') st1 = Some st2 ∧
    finalize ["a"; "b"] st2 = (Ret tt, st').
Proof.
  apply (files_in_range_order disk_ab ["a"; "b"] ["b"; "a"] ["b"; "a"] ["a"; "b"]).
  - apply range_order_NewConfig_perm, perm_swap.
  - apply range_order_NewConfig_perm, perm_swap.
  - vm_compute. reflexivity.
Defined.

(** C3: after a successful [Parse_conf], [Get] returns, for every
    section and key that was assigned, the value of the last assignment
    among the lines in the order in which they were parsed. *)
Theorem last_write_wins d files order1 order2 order3 st' section key v :
  Parse_conf order1 order2 order3 (boot d files) = (Ret (true, None), st') →
  last_write section key (assignments None (lines_parsed order2 st')) = Some v →
  Get section key st' = (Ret (v, None), st').
Proof.
  intros Hparse Hlast.
  apply Parse_conf_success in Hparse as (st1 & st2 & Hopen & Hloop & Hfin).
  destruct (_open_files_loop_frame _ _ _ _ Hopen) as (Hstore & _ & _).
  pose proof (wf_same_store _ _ Hstore (wf_boot d files)) as Hwf1.
  pose proof (Parse_conf_loop_same_files _ _ _ _ Hloop) as Hsame.
  apply Parse_conf_loop_success in Hloop.
  destruct (run_lines_last_write _ _ _ Hwf1 Hloop) as [_ Hf].
  destruct (finalize_lines_parsed _ _ _ order2 Hfin) as (Hlines & _ & Hfield).
  apply field_of_Get. rewrite Hfield, Hf.
  assert (cur_name st1 = None) as ->.
  { apply cur_name_inactive. by destruct Hstore as (_ & _ & -> & _). }
  by rewrite <- (lines_parsed_same _ _ _ Hsame), <- Hlines, Hlast.
Qed.

Lemma last_write_wins_witness :
  let st' := (Parse_conf ["a"] ["a"] ["a"] (boot disk_twice ["a"])).2 in
  Get "s" "a" st' = (Ret ("2", None), st').
Proof.
  apply (last_write_wins disk_twice ["a"] ["a"] ["a"] ["a"]).
  - vm_compute. reflexivity.
  - vm_compute. reflexivity.
Defined.

(** C8: however [Parse_conf] returns, by success, by a line error, by
    a failed open or read, or by a panic, [Close] has been called
    exactly once on every file that was opened. *)
Theorem files_closed_once d files order1 order2 order3 r st' :
  range_order (conf_files (NewConfig files)) order3 →
  Parse_conf order1 order2 order3 (boot d files) = (r, st') →
  Forall (λ f, closes f = 1) (ftable st').
Proof.
  intros [Hnd Hord] Hparse.
  apply Parse_conf_phases in Hparse as (r1 & st1 & st2 & Hopen & Hsame & Hfin).
  destruct (_open_files_loop_frame _ _ _ _ Hopen) as (_ & _ & Hdom).
  destruct (_open_files_loop_owned _ _ _ _ Hopen) as [Hown Hzero];
    [apply files_owned_boot | constructor |].
  destruct Hsame as (Hc & Ht & _).
  assert (Hown2 : files_owned st2).
  { unfold files_owned. by rewrite Hc, Ht. }
  assert (Hord2 : range_order (conf_files (config st2)) order3).
  { split; [done|]. intros k. by rewrite Hc, Hdom. }
  destruct (finalize_loop order3 st2) as (st3 & H3 & _ & _ & _ & _ & Hlen & Hf).
  rewrite Hfin in H3. injection H3 as <-.
  apply Forall_lookup. intros fd f' Hfd.
  assert (Hlt : fd < length (ftable st2)).
  { rewrite <- Hlen. by eapply lookup_lt_Some. }
  destruct (lookup_lt_is_Some_2 _ _ Hlt) as [f Hf2].
  rewrite (Hf _ _ Hf2) in Hfd. injection Hfd as <-. simpl.
  rewrite (holders_one _ _ _ Hown2 Hord2 Hlt).
  rewrite Forall_lookup in Hzero. rewrite Ht in Hf2.
  rewrite (Hzero _ _ Hf2). done.
Qed.

Lemma files_closed_once_witness :
  (Parse_conf ["a"; "zz"] ["a"; "zz"] ["zz"; "a"] (boot disk_twice ["a"; "zz"])).1
    = Ret (false, Some (IOError "open zz: no such file or directory")) ∧
  Forall (λ f, closes f = 1)
    (ftable (Parse_conf ["a"; "zz"] ["a"; "zz"] ["zz"; "a"]
               (boot disk_twice ["a"; "zz"])).2).
Proof.
  split; [vm_compute; reflexivity|].
  eapply (files_closed_once disk_twice ["a"; "zz"] ["a"; "zz"] ["a"; "zz"] ["zz"; "a"]).
  - apply range_order_NewConfig_perm, perm_swap.
  - apply surjective_pairing.
Defined.

Lemma filter_none {A} (P : A → Prop) `{!∀ x, Decision (P x)} (l : list A) :
  Forall (λ x, ¬ P x) l → filter P l = [].
Proof.
  induction 1 as [|x l Hx _ IH]; [done|]. by rewrite filter_cons_False.
Qed.

(** In a well-formed store, a registered name is the name of exactly
    one allocated [Section]. *)
Lemma wf_one_section st n p :
  wf st → sections (config st) !! n = Some p →
  length (filter (λ s, name s = n) (heap st)) = 1.
Proof.
  intros (W1 & W2 & _) Hn. destruct (W1 _ _ Hn) as (s & Hs & Hname).
  rewrite <- (take_drop_middle _ _ _ Hs).
  rewrite filter_app, filter_cons_True by done.
  rewrite !filter_none; [done| |].
  - apply Forall_forall. intros s' [i Hi]%list_elem_of_lookup Hs'.
    rewrite lookup_drop in Hi. apply W2 in Hi. rewrite Hs' in Hi.
    assert (S p + i = p) by congruence. lia.
  - apply Forall_forall. intros s' [i Hi]%list_elem_of_lookup Hs'.
    apply lookup_take_Some in Hi as [Hi Hlt]. apply W2 in Hi.
    rewrite Hs' in Hi. assert (i = p) by congruence. lia.
Qed.

Lemma set_pstate_same st :
  _pstate (config st) = _pstate (config st) →
  set_config (set_pstate (_pstate (config st))) st = st.
Proof. by destruct st as [[] ? ? ? ?]. Qed.

(** A successful [Parse_conf] leaves a well-formed store. *)
Lemma Parse_conf_wf d files order1 order2 order3 e st' :
  Parse_conf order1 order2 order3 (boot d files) = (Ret (true, e), st') → wf st'.
Proof.
  intros (st1 & st2 & Hopen & Hloop & Hfin)%Parse_conf_success.
  destruct (_open_files_loop_frame _ _ _ _ Hopen) as (Hstore & _ & _).
  pose proof (wf_same_store _ _ Hstore (wf_boot d files)) as Hwf1.
  apply Parse_conf_loop_success in Hloop.
  destruct (run_lines_last_write _ _ _ Hwf1 Hloop) as [Hwf2 _].
  destruct (finalize_loop order3 st2) as (st3 & H3 & Hc & Hh & _).
  rewrite Hfin in H3. injection H3 as <-.
  unfold wf. by rewrite Hc, Hh.
Qed.

(** C4: a header line [[name]] with a non-empty name, on a well-formed
    store, succeeds; a [Section] of that name that exists is reused as
    it is and made current; otherwise one new empty [Section] of that
    name is allocated and registered; afterwards exactly one [Section]
    has that name, and parsing the line again changes nothing. *)
Theorem header_get_or_create line sec_name st :
  wf st → TrimSpace line = "[" +:+ sec_name +:+ "]" → sec_name ≠ EmptyString →
  ∃ p st1,
    _parse_line line st = (Ret (true, None), st1) ∧
    wf st1 ∧
    sections (config st1) !! sec_name = Some p ∧
    _pstate (config st1) = {| in_sec := true; cur_sec := Some p |} ∧
    match sections (config st) !! sec_name with
    | Some q =>
        p = q ∧ heap st1 = heap st ∧ sections (config st1) = sections (config st)
    | None =>
        p = length (heap st) ∧
        heap st1 = heap st ++ [{| name := sec_name; fields := ∅ |}] ∧
        sections (config st1) = <[sec_name := p]> (sections (config st))
    end ∧
    length (filter (λ s, name s = sec_name) (heap st1)) = 1 ∧
    _parse_line line st1 = (Ret (true, None), st1).
Proof.
  intros Hwf Hline Hname.
  assert (Hexec : ∀ st0, _parse_line line st0 = open_section sec_name st0).
  { intros st0. by rewrite _parse_line_lex, (lex_bracket _ _ Hline Hname). }
  destruct (open_section_step sec_name st Hwf) as (st1 & Hst1 & Hwf1 & _ & _).
  assert (Hcases : ∃ p, sections (config st1) !! sec_name = Some p ∧
    _pstate (config st1) = {| in_sec := true; cur_sec := Some p |} ∧
    match sections (config st) !! sec_name with
    | Some q =>
        p = q ∧ heap st1 = heap st ∧ sections (config st1) = sections (config st)
    | None =>
        p = length (heap st) ∧
        heap st1 = heap st ++ [{| name := sec_name; fields := ∅ |}] ∧
        sections (config st1) = <[sec_name := p]> (sections (config st))
    end).
  { destruct (sections (config st) !! sec_name) as [q|] eqn:Hq.
    - rewrite (open_section_old _ _ _ Hq) in Hst1. injection Hst1 as <-.
      exists q. by simpl.
    - rewrite (open_section_new _ _ Hq) in Hst1. injection Hst1 as <-.
      exists (length (heap st)). simpl. by rewrite lookup_insert_eq. }
  destruct Hcases as (p & Hp & Hps & Hcase).
  exists p, st1. split_and!; [by rewrite Hexec|done..| |].
  - by eapply wf_one_section.
  - rewrite Hexec, (open_section_old _ _ _ Hp), <- Hps.
    by rewrite set_pstate_same.
Qed.

Lemma header_get_or_create_witness :
  ∃ p st1,
    _parse_line "  [sec] " (boot ∅ []) = (Ret (true, None), st1) ∧
    wf st1 ∧
    sections (config st1) !! "sec" = Some p ∧
    _pstate (config st1) = {| in_sec := true; cur_sec := Some p |} ∧
    match sections (config (boot ∅ [])) !! "sec" with
    | Some q =>
        p = q ∧ heap st1 = heap (boot ∅ []) ∧
        sections (config st1) = sections (config (boot ∅ []))
    | None =>
        p = length (heap (boot ∅ [])) ∧
        heap st1 = heap (boot ∅ []) ++ [{| name := "sec"; fields := ∅ |}] ∧
        sections (config st1) = <["sec" := p]> (sections (config (boot ∅ [])))
    end ∧
    length (filter (λ s, name s = "sec") (heap st1)) = 1 ∧
    _parse_line "  [sec] " st1 = (Ret (true, None), st1).
Proof.
  apply (header_get_or_create "  [sec] " "sec" (boot ∅ [])).
  - apply wf_boot.
  - vm_compute. reflexivity.
  - discriminate.
Defined.

(** C6: on a well-formed store [Get] fails with [NoSuchSectionError]
    exactly when no section is registered under the very string
    [section], with [NoSuchKeyError] exactly when that section exists
    and has no field under the very string [key], and returns the
    stored value otherwise. *)
Theorem Get_cases st section key :
  wf st →
  (Get section key st
     = (Ret (EmptyString, Some (ErrNoSuchSection {| nsse_sec_name := section |})), st)
   ↔ sections (config st) !! section = None) ∧
  (Get section key st
     = (Ret (EmptyString,
             Some (ErrNoSuchKey {| nske_sec_name := section; nske_key := key |})), st)
   ↔ ∃ p s, sections (config st) !! section = Some p ∧ heap st !! p = Some s ∧
            fields s !! key = None) ∧
  (∀ value,
     Get section key st = (Ret (value, None), st)
     ↔ ∃ p s, sections (config st) !! section = Some p ∧ heap st !! p = Some s ∧
              fields s !! key = Some value).
Proof.
  intros (W1 & _ & _). unfold Get, bind, gets, ret. simpl.
  destruct (sections (config st) !! section) as [p|] eqn:Hp; simpl.
  - destruct (W1 _ _ Hp) as (s & Hs & _). rewrite Hs. simpl.
    destruct (fields s !! key) as [v|] eqn:Hk.
    + split_and!; [done| |].
      * split; [done|]. intros (p' & s' & [= <-] & Hs' & Hk').
        rewrite Hs in Hs'. injection Hs' as <-. congruence.
      * intros value. split.
        -- intros [= <-]. by exists p, s.
        -- intros (p' & s' & [= <-] & Hs' & Hk').
           rewrite Hs in Hs'. injection Hs' as <-. congruence.
    + split_and!; [done| |].
      * split; [|done]. intros _. by exists p, s.
      * intros value. split; [done|].
        intros (p' & s' & [= <-] & Hs' & Hk').
        rewrite Hs in Hs'. injection Hs' as <-. congruence.
  - split_and!; [done| |].
    + split; [done|]. by intros (p' & s' & [=] & _).
    + intros value. split; [done|]. by intros (p' & s' & [=] & _).
Qed.

Lemma Get_cases_witness :
  let st := (Parse_conf ["a"] ["a"] ["a"] (boot disk_twice ["a"])).2 in
  (Get "s" "a" st
     = (Ret (EmptyString, Some (ErrNoSuchSection {| nsse_sec_name := "s" |})), st)
   ↔ sections (config st) !! "s" = None) ∧
  (Get "s" "a" st
     = (Ret (EmptyString,
             Some (ErrNoSuchKey {| nske_sec_name := "s"; nske_key := "a" |})), st)
   ↔ ∃ p s, sections (config st) !! "s" = Some p ∧ heap st !! p = Some s ∧
            fields s !! "a" = None) ∧
  (∀ value,
     Get "s" "a" st = (Ret (value, None), st)
     ↔ ∃ p s, sections (config st) !! "s" = Some p ∧ heap st !! p = Some s ∧
              fields s !! "a" = Some value).
Proof.
  apply (Get_cases (Parse_conf ["a"] ["a"] ["a"] (boot disk_twice ["a"])).2 "s" "a").
  apply (Parse_conf_wf disk_twice ["a"] ["a"] ["a"] ["a"] None).
  vm_compute. reflexivity.
Defined.

(** C7, as stated, fails for section names: the interior of a header
    is not trimmed, so [[   ]] registers a section whose name is three
    blanks, and that name trims to the empty string. *)
Lemma blank_section_name_registered :
  (_parse_line "[   ]" (boot ∅ [])).1 = Ret (true, None) ∧
  sections (config (_parse_line "[   ]" (boot ∅ [])).2) !! "   " = Some 0 ∧
  TrimSpace "   " = EmptyString.
Proof. split_and!; by vm_compute. Qed.

(** C7, amended: [_parse_line] keeps every registered section name
    non-empty (as it stands in the header, untrimmed), and every stored
    key non-empty after trimming. *)
Theorem names_and_keys_nonempty line st r st1 :
  names_keys_ok st → _parse_line line st = (r, st1) → names_keys_ok st1.
Proof.
  intros [Hn Hk]. rewrite _parse_line_lex.
  destruct (lex line) as [|n|e|l k v|w] eqn:Hlex; simpl.
  - by intros [= _ <-].
  - apply lex_header_inv in Hlex.
    destruct (sections (config st) !! n) as [p|] eqn:Hp.
    + rewrite (open_section_old _ _ _ Hp). by intros [= _ <-].
    + rewrite (open_section_new _ _ Hp). intros [= _ <-]. split; simpl.
      * intros n' p'. destruct (decide (n = n')) as [<-|Hne]; [done|].
        rewrite lookup_insert_ne by done. apply Hn.
      * intros p' s k' v' [Hs|[_ Hs]]%lookup_app_Some; [by eapply Hk|].
        destruct (p' - length (heap st)) as [|i]; [|by destruct i].
        injection Hs as <-. simpl. by rewrite lookup_empty.
  - by intros [= _ <-].
  - apply lex_assign_inv in Hlex as (Hne & Htrim & _).
    unfold assign, bind, gets, ret. simpl.
    destruct (in_sec _); simpl; [|by intros [= _ <-]].
    destruct (cur_sec _) as [p|]; simpl; [|by intros [= _ <-]].
    intros [= _ <-]. split; [done|]. simpl.
    destruct (heap st !! p) as [s|] eqn:Hs; [|done].
    intros p' s' k' v'. destruct (decide (p = p')) as [<-|Hp].
    + rewrite list_lookup_insert_eq by by eapply lookup_lt_Some.
      intros [= <-]. simpl. destruct (decide (k = k')) as [<-|Hkk].
      * intros _. congruence.
      * rewrite lookup_insert_ne by done. by eapply Hk.
    + rewrite list_lookup_insert_ne by done. apply Hk.
  - by intros [= _ <-].
Qed.

Lemma names_and_keys_nonempty_witness :
  names_keys_ok (_parse_line " key = v" (_parse_line "[s]" (boot ∅ [])).2).2.
Proof.
  eapply (names_and_keys_nonempty " key = v" (_parse_line "[s]" (boot ∅ [])).2).
  - eapply (names_and_keys_nonempty "[s]" (boot ∅ [])).
    + split; simpl; [intros n p | intros p s k v]; by rewrite ?lookup_empty.
    + apply surjective_pairing.
  - apply surjective_pairing.
Defined.

(** The guard of line 169, on any pair of a line and an error: next
    to an error that is neither [nil] nor [io.EOF], [_parse_line] is not
    called; the loop logs the error and returns it.  Next to [io.EOF]
    the line is parsed, and the loop ends after it. *)
Lemma read_error_drops_line fname line e br st :
  e ≠ EOF →
  _parse_file_loop fname ((line, Some e) :: br) st
    = (Ret (false, Some e), (console_log "ERROR" (Error e) st).2) ∧
  _parse_file_loop fname ((line, Some EOF) :: br) st
    = match _parse_line line st with
      | (Ret (true, _), st1) => (Ret (true, None), st1)
      | (Ret (false, _err), st1) =>
          (Ret (false, Some (ErrConfFile {| cfe_fname := fname; cfe_error := _err |})),
           st1)
      | (Panic why, st1) => (Panic why, st1)
      end.
Proof.
  intros He. split; simpl; unfold _parse_file_round, bind.
  - by destruct e.
  - by destruct (_parse_line line st) as [[[[] ?]|] ?].
Qed.



(** C2: the code does not do this.  For every key/value line whose
    trimmed value is one double quote, the quote test of line 144
    holds, and the slice [value[1:0]] of line 145 panics: the line is
    neither stored nor rejected. *)
Theorem lone_quote_panics line key st :
  key_value line = Some (key, String dquote EmptyString) →
  _parse_line line st = (Panic "slice bounds out of range", st).
Proof.
  intros Hkv. by rewrite _parse_line_lex, (lex_key_value_line _ _ _ Hkv).
Qed.

Lemma lone_quote_panics_witness :
  _parse_line ("k = " +:+ String dquote EmptyString) (boot ∅ [])
    = (Panic "slice bounds out of range", boot ∅ []).
Proof.
  apply (lone_quote_panics ("k = " +:+ String dquote EmptyString) "k" (boot ∅ [])).
  vm_compute. reflexivity.
Defined.

(** A key/value line outside any section, whose value gets through
    the quote test, is refused with the error of line 148; the loop of
    [_parse_file] wraps the error with the file name and stops there:
    the store is as it was and the rest of the file is not read. *)
Lemma outside_section_stops fname line key value value' br st :
  key_value line = Some (key, value) →
  strip_quotes value = Ret value' →
  in_sec (_pstate (config st)) = false →
  _parse_line line st
    = (Ret (false, Some {| cle_line := TrimSpace line; cle_error := msg_no_section |}),
       st) ∧
  _parse_file_loop fname ((line, None) :: br) st
    = (Ret (false,
            Some (ErrConfFile
                    {| cfe_fname := fname;
                       cfe_error := Some {| cle_line := TrimSpace line;
                                            cle_error := msg_no_section |} |})),
       st).
Proof.
  intros Hkv Hq Hin.
  assert (Hline : _parse_line line st
    = (Ret (false, Some {| cle_line := TrimSpace line; cle_error := msg_no_section |}),
       st)).
  { rewrite _parse_line_lex, (lex_key_value_line _ _ _ Hkv), Hq. simpl.
    by apply assign_outside. }
  split; [done|]. simpl. unfold _parse_file_round, bind. by rewrite Hline.
Qed.

(** C5: the code does not do this for every key/value line.  The value
    is indexed (line 144) before the section test (line 147): on a file
    whose first line is a key with nothing after the [=], [Parse_conf]
    panics instead of returning the error of line 148. *)
Theorem bare_key_outside_section_panics :
  (Parse_conf ["a"] ["a"] ["a"] (boot disk_bare_key ["a"])).1
    = Panic "index out of range" ∧
  lex "k =" = TPanic "index out of range".
Proof. split; by vm_compute. Qed.

(** C10: the code does not do this.  For every key/value line whose
    value trims to the empty string, the quote test of line 144 indexes
    the empty value at 0: the call panics. *)
Theorem empty_value_panics line key st :
  key_value line = Some (key, EmptyString) →
  _parse_line line st = (Panic "index out of range", st).
Proof.
  intros Hkv. by rewrite _parse_line_lex, (lex_key_value_line _ _ _ Hkv).
Qed.

Lemma empty_value_panics_witness :
  _parse_line "k =" (boot ∅ []) = (Panic "index out of range", boot ∅ []).
Proof.
  apply (empty_value_panics "k =" "k" (boot ∅ [])).
  vm_compute. reflexivity.
Defined.

End claims.

(** * Further properties of the package *)

(** ** Indexing and slicing never fail within bounds *)

Section bounds.

Lemma get_lt n s : n < String.length s → is_Some (String.get n s).
Proof.
  revert n. induction s as [|c s IH]; intros n; simpl; [lia|].
  destruct n as [|n]; [by eexists|]. intros ?. apply IH. lia.
Qed.

Lemma at_Ret s i : (0 ≤ i < len s)%Z → ∃ c, at_ s i = Ret c.
Proof.
  intros Hi. unfold at_. rewrite bool_decide_eq_true_2 by done.
  destruct (get_lt (Z.to_nat i) s) as [c ->]; [unfold len in Hi; lia|].
  by exists c.
Qed.

Lemma slice_Ret s lo hi :
  (0 ≤ lo ∧ lo ≤ hi ∧ hi ≤ len s)%Z → ∃ t, slice s lo hi = Ret t.
Proof. intros H. unfold slice. rewrite bool_decide_eq_true_2 by done. by eexists. Qed.

Lemma is_bounded_Ret s c c' : (len s > 0)%Z → ∃ b, is_bounded s c c' = Ret b.
Proof.
  intros Hs. unfold is_bounded.
  destruct (at_Ret s 0) as [first ->]; [lia|].
  destruct (byte_eq first c); [|by eexists].
  destruct (at_Ret s (len s - 1)%Z) as [last ->]; [lia|]. by eexists.
Qed.

(** Two different bytes bound a string of at least two bytes. *)
Lemma is_bounded_true_len s c c' :
  c ≠ c' → is_bounded s c c' = Ret true → (2 ≤ len s)%Z.
Proof.
  intros Hc. unfold is_bounded.
  destruct (decide (len s = 1)%Z) as [H1|H1].
  - rewrite H1. change (1 - 1)%Z with 0%Z.
    destruct (at_ s 0) as [first|]; [|done].
    unfold byte_eq. case_bool_decide as Hf; [|done]. case_bool_decide; [|done].
    congruence.
  - destruct (decide (len s ≤ 0)%Z) as [H0|H0]; [|lia].
    unfold at_. by rewrite bool_decide_eq_false_2 by lia.
Qed.

Lemma prefix_length s1 s2 :
  String.prefix s1 s2 = true → String.length s1 ≤ String.length s2.
Proof.
  revert s2. induction s1 as [|a s1 IH]; intros [|b s2]; simpl;
    try lia; try done.
  destruct (ascii_dec a b); [|done]. intros ?%IH. lia.
Qed.

Lemma index_from_cons substr c s i :
  index_from substr (String c s) i =
    if String.prefix substr (String c s) then i
    else index_from substr s (i + 1)%Z.
Proof. reflexivity. Qed.

(** Where [strings.Index] finds the substring, it fits. *)
Lemma index_from_bounds substr s i :
  index_from substr s i = (-1)%Z ∨
  (i ≤ index_from substr s i ∧
   index_from substr s i + len substr ≤ i + len s)%Z.
Proof.
  revert i. induction s as [|c s IH]; intros i.
  - destruct substr; simpl; [right; unfold len; simpl; lia | by left].
  - rewrite index_from_cons.
    destruct (String.prefix substr (String c s)) eqn:Hp.
    + right. apply prefix_length in Hp. unfold len. simpl in *. lia.
    + destruct (IH (i + 1)%Z) as [->|H]; [by left|]. right.
      unfold len in *. simpl String.length. lia.
Qed.

Lemma Index_bounds s substr :
  (Index s substr > 0)%Z → (Index s substr + len substr ≤ len s)%Z.
Proof.
  unfold Index. intros H. destruct (index_from_bounds substr s 0); lia.
Qed.

Lemma bytes_substring_0 n s : bytes (String.substring 0 n s) = take n (bytes s).
Proof.
  revert s. induction n as [|n IH]; intros [|c s]; simpl; try done.
  by rewrite <- IH.
Qed.

Lemma prefix_equals_cons c s :
  String.prefix "=" (String c s) = bool_decide ("="%char = c).
Proof.
  change (String.prefix "=" (String c s))
    with (match ascii_dec "=" c with
          | left _ => String.prefix EmptyString s
          | right _ => false
          end).
  destruct (ascii_dec "=" c) as [Hc|Hc].
  - rewrite bool_decide_eq_true_2 by done. by destruct s.
  - by rewrite bool_decide_eq_false_2.
Qed.

(** Before the place where [strings.Index] finds [=], there is none. *)
Lemma index_from_first s i :
  (0 ≤ i)%Z → (i ≤ index_from "=" s i)%Z →
  "="%char ∉ take (Z.to_nat (index_from "=" s i - i)) (bytes s).
Proof.
  revert i. induction s as [|c s IH]; intros i.
  - intros _ _. change (bytes EmptyString) with (@nil ascii).
    rewrite take_nil. apply not_elem_of_nil.
  - rewrite index_from_cons, prefix_equals_cons. case_bool_decide as Hc.
    + intros _ _. rewrite Z.sub_diag. apply not_elem_of_nil.
    + intros H0 Hi. destruct (index_from_bounds "=" s (i + 1)%Z) as [H|[H _]]; [lia|].
      replace (Z.to_nat (index_from "=" s (i + 1) - i))
        with (S (Z.to_nat (index_from "=" s (i + 1) - (i + 1)))) by lia.
      change (bytes (String c s)) with (c :: bytes s).
      rewrite firstn_cons, not_elem_of_cons. split; [done|]. apply IH; lia.
Qed.

Lemma slice_to_no_equals s key :
  (Index s "=" > 0)%Z → slice_to s (Index s "=") = Ret key →
  "="%char ∉ bytes key.
Proof.
  intros Hpos. unfold slice_to, slice. case_bool_decide; [|done].
  intros [= <-]. simpl. rewrite bytes_substring_0, Z.sub_0_r.
  unfold Index in *. pose proof (index_from_first s 0) as Hfirst.
  rewrite Z.sub_0_r in Hfirst. apply Hfirst; lia.
Qed.

(** [TrimSpace] only drops bytes. *)
Lemma TrimSpace_bytes s c : c ∈ bytes (TrimSpace s) → c ∈ bytes s.
Proof.
  unfold TrimSpace. rewrite bytes_of_bytes. intros Hc.
  destruct (trim_right_prefix (trim_left (bytes s))) as [k Hk].
  destruct (trim_runes_suffix (length (bytes s)) space_runes (bytes s)) as [k' Hk'].
  rewrite Hk'. apply elem_of_app. right.
  change (trim_runes _ _ _) with (trim_left (bytes s)).
  rewrite Hk. apply elem_of_app. by left.
Qed.

End bounds.

(** ** What [_parse_line] does with each kind of line *)

Section line_kinds.

Implicit Types (st : State).

Lemma is_bounded_wrap c n c' :
  is_bounded (String c (n +:+ String c' EmptyString)) c c' = Ret true.
Proof.
  unfold is_bounded, at_, len, byte_eq. simpl String.get.
  rewrite bool_decide_eq_true_2 by (simpl; lia).
  rewrite bool_decide_eq_true_2 by done.
  simpl String.length. rewrite length_bracket.
  rewrite bool_decide_eq_true_2 by lia.
  replace (Z.to_nat (Z.of_nat (S (S (String.length n))) - 1))
    with (S (String.length n)) by lia.
  simpl. rewrite get_bracket_last. by rewrite bool_decide_eq_true_2.
Qed.

Lemma slice_wrap c n c' :
  slice (String c (n +:+ String c' EmptyString)) 1
    (len (String c (n +:+ String c' EmptyString)) - 1) = Ret n.
Proof.
  unfold slice, len. simpl String.length. rewrite length_bracket.
  rewrite bool_decide_eq_true_2 by lia.
  replace (Z.to_nat (Z.of_nat (S (S (String.length n))) - 1 - 1))
    with (String.length n) by lia.
  change (Z.to_nat 1) with 1. simpl. by rewrite substring_bracket.
Qed.

(** The quote test and the slice of lines 144 to 146, on a quoted value. *)
Lemma strip_quotes_quoted v : strip_quotes (quoted v) = Ret v.
Proof.
  unfold strip_quotes, quoted. by rewrite is_bounded_wrap, slice_wrap.
Qed.

(** Lines 144 to 146 panic on the empty value and on the lone quote,
    and on nothing else. *)
Lemma strip_quotes_Panic value :
  (∃ why, strip_quotes value = Panic why) ↔
  value = EmptyString ∨ value = String dquote EmptyString.
Proof.
  split.
  - intros [why H]. unfold strip_quotes in H.
    destruct value as [|c v]; [by left|]. right.
    destruct (is_bounded (String c v) dquote dquote) as [[]|] eqn:Hb.
    + destruct v as [|c' v].
      * revert Hb. unfold is_bounded, at_, byte_eq. simpl.
        case_bool_decide; [by subst c | done].
      * destruct (slice_Ret (String c (String c' v)) 1
                    (len (String c (String c' v)) - 1)) as [t Ht].
        { unfold len. simpl. lia. }
        congruence.
    + done.
    + destruct (is_bounded_Ret (String c v) dquote dquote) as [b Hb'];
        [unfold len; simpl; lia | congruence].
  - intros [->| ->]; by eexists.
Qed.

Lemma lex_blank line : TrimSpace line = EmptyString → lex line = TBlank.
Proof.
  intros H. unfold lex. case_bool_decide; [|done]. cbv zeta. by rewrite H.
Qed.

(** Before the quote test nothing panics: a line that does not reach
    it is blank, a header, or an error. *)
Lemma lex_no_early_panic line why :
  key_value line = None → lex line ≠ TPanic why.
Proof.
  unfold key_value, lex. case_bool_decide; [|done]. cbv zeta.
  case_bool_decide as Hlen; [|done].
  destruct (is_bounded_Ret (TrimSpace line) "[" "]" Hlen) as [b Hb].
  rewrite Hb. destruct b.
  - intros _. unfold lex_header.
    apply is_bounded_true_len in Hb; [|done].
    destruct (slice_Ret (TrimSpace line) 1 (len (TrimSpace line) - 1)) as [n ->];
      [lia|]. by case_bool_decide.
  - unfold lex_key_value. cbv zeta. case_bool_decide as Hpos; [done|].
    pose proof (Index_bounds (TrimSpace line) "=") as Hb'.
    change (len "=") with 1%Z in Hb'.
    destruct (slice_Ret (TrimSpace line) 0 (Index (TrimSpace line) "=")) as [k Hk];
      [lia|].
    destruct (slice_Ret (TrimSpace line) (Index (TrimSpace line) "=" + 1)
                (len (TrimSpace line))) as [v Hv]; [lia|].
    unfold slice_to, slice_from. rewrite Hk, Hv.
    by case_bool_decide.
Qed.

Lemma lex_error_inv line e :
  lex line = TError e →
  cle_line e = TrimSpace line ∧
  cle_error e ∈ [msg_empty_section; msg_invalid_line; msg_empty_key].
Proof.
  unfold lex. case_bool_decide; [|done]. cbv zeta.
  case_bool_decide; [|done].
  destruct (is_bounded _ _ _) as [[]|]; [| |done].
  - unfold lex_header. destruct (slice _ _ _) as [n|]; [|done].
    case_bool_decide; [|done]. intros [= <-]. split; [done|]. simpl. left.
  - unfold lex_key_value. cbv zeta. case_bool_decide.
    { intros [= <-]. split; [done|]. simpl. right. left. }
    destruct (slice_to _ _) as [k|]; [|done].
    case_bool_decide.
    { intros [= <-]. split; [done|]. simpl. right. right. left. }
    destruct (slice_from _ _); [|done]. by destruct (strip_quotes _).
Qed.

Lemma lex_assign_no_equals line l key value :
  lex line = TAssign l key value → "="%char ∉ bytes key.
Proof.
  unfold lex. case_bool_decide; [|done]. cbv zeta.
  case_bool_decide; [|done].
  destruct (is_bounded _ _ _) as [[]|]; [| |done].
  - unfold lex_header. destruct (slice _ _ _) as [n|]; [|done].
    by case_bool_decide.
  - unfold lex_key_value. cbv zeta. case_bool_decide as Hpos; [done|].
    destruct (slice_to _ _) as [k|] eqn:Hk; [|done].
    case_bool_decide; [done|].
    destruct (slice_from _ _); [|done].
    destruct (strip_quotes _); [|done].
    intros [= _ <- _] Hin. apply TrimSpace_bytes in Hin.
    eapply slice_to_no_equals; [|exact Hk|exact Hin]. lia.
Qed.

(** How a line can fail: with the trimmed line, one of the four
    messages, and the state as it was. *)
Lemma _parse_line_failure line st e st1 :
  _parse_line line st = (Ret (false, e), st1) →
  st1 = st ∧
  ∃ msg, msg ∈ line_messages ∧
         e = Some {| cle_line := TrimSpace line; cle_error := msg |}.
Proof.
  intros H. split.
  { apply (_parse_line_unchanged _ _ _ _ H). by intros e' [=]. }
  revert H. rewrite _parse_line_lex.
  destruct (lex line) as [|n|e'|l k v|w] eqn:Hlex; simpl.
  - done.
  - unfold open_section, bind, gets, ret. simpl.
    by destruct (sections (config st) !! n).
  - apply lex_error_inv in Hlex as [Hl Hm]. intros [= <- _].
    exists (cle_error e'). split.
    + unfold line_messages. rewrite !elem_of_cons, elem_of_nil in Hm.
      rewrite !elem_of_cons. tauto.
    + destruct e'. simpl in *. by subst.
  - apply lex_assign_inv in Hlex as (_ & _ & ->).
    unfold assign, bind, gets, ret. simpl.
    destruct (in_sec _); simpl.
    + by destruct (cur_sec _).
    + intros [= <- _]. exists msg_no_section. split; [|done].
      unfold line_messages. do 3 right. left.
  - done.
Qed.

(** [Get] through the views: which section is registered, which field
    it has. *)
Lemma Get_view st sec key :
  wf st →
  Get sec key st =
    (Ret (match sections (config st) !! sec with
          | None => (EmptyString, Some (ErrNoSuchSection {| nsse_sec_name := sec |}))
          | Some _ =>
              match field_of st sec key with
              | Some v => (v, None)
              | None =>
                  (EmptyString,
                   Some (ErrNoSuchKey {| nske_sec_name := sec; nske_key := key |}))
              end
          end), st).
Proof.
  intros (W1 & _ & _). unfold Get, field_of, bind, gets, ret. simpl.
  destruct (sections (config st) !! sec) as [p|] eqn:Hp; simpl; [|done].
  destruct (W1 _ _ Hp) as (s & -> & _). simpl.
  by destruct (fields s !! key).
Qed.

Lemma Get_field_of st sec key v :
  Get sec key st = (Ret (v, None), st) → field_of st sec key = Some v.
Proof.
  unfold Get, field_of, bind, gets, ret. simpl.
  destruct (sections (config st) !! sec) as [p|]; simpl; [|done].
  destruct (heap st !! p) as [s|]; simpl; [|done].
  destruct (fields s !! key); [|done]. by intros [= ->].
Qed.

End line_kinds.

(** ** Lines, one kind after the other *)

Section line_properties.

Implicit Types (st : State).

Lemma exec_no_panic t st :
  wf st → (∀ why, t ≠ TPanic why) → ∃ x, (exec t st).1 = Ret x.
Proof.
  intros Hwf Ht. destruct t as [|n|e|l k v|w]; simpl.
  - by eexists.
  - destruct (open_section_step n st Hwf) as (st1 & -> & _). by eexists.
  - by eexists.
  - destruct (in_sec (_pstate (config st))) eqn:Hin.
    + destruct (wf_active _ Hwf Hin) as (p & s & Hp & Hs & Hcur).
      destruct (assign_step l k v st _ Hwf Hcur) as (st1 & -> & _). by eexists.
    + rewrite assign_outside by done. by eexists.
  - by destruct (Ht w).
Qed.

Lemma wf_st_in_s : wf st_in_s.
Proof.
  eapply (_parse_line_wf "[s]" (boot ∅ [])); [apply wf_boot|].
  apply surjective_pairing.
Qed.

(** X1: a line of white space only (or an empty line) is accepted and
    changes nothing, and so does a whole file of such lines, the empty
    file included. *)
Theorem blank_lines_are_noops fname line br st :
  TrimSpace line = EmptyString → Forall blank_read br →
  _parse_line line st = (Ret (true, None), st) ∧
  _parse_file_loop fname br st = (Ret (true, None), st).
Proof.
  intros Hline Hbr. split.
  { by rewrite _parse_line_lex, lex_blank. }
  induction Hbr as [|[l err] br [Hl Herr] _ IH]; simpl.
  - unfold _parse_file_round, bind. by rewrite _parse_line_empty.
  - simpl in Hl, Herr. unfold _parse_file_round, bind.
    assert (Hp : _parse_line l st = (Ret (true, None), st))
      by by rewrite _parse_line_lex, lex_blank.
    destruct Herr as [-> | ->]; rewrite Hp; simpl; [exact IH | done].
Qed.

Lemma blank_lines_are_noops_witness :
  _parse_line "  	 " st_in_s = (Ret (true, None), st_in_s) ∧
  _parse_file_loop "f" [(EmptyString, None); ("   ", None); (EmptyString, Some EOF)] st_in_s
    = (Ret (true, None), st_in_s).
Proof.
  apply (blank_lines_are_noops "f" "  	 " [(EmptyString, None); ("   ", None); (EmptyString, Some EOF)]).
  - vm_compute. reflexivity.
  - repeat (apply Forall_cons; split;
              [split; [vm_compute; reflexivity | (by left) || (by right)] |]).
    apply Forall_nil_2.
Defined.

(** X2: on a well-formed store [_parse_line] panics for exactly two
    kinds of line: a key/value line whose value trims to the empty
    string, and one whose value trims to a lone double quote.  Every
    other line is answered with success or with a line error. *)
Theorem panics_exactly_on_short_values line st :
  wf st →
  (∃ why, (_parse_line line st).1 = Panic why) ↔
  ∃ key value, key_value line = Some (key, value) ∧
               (value = EmptyString ∨ value = String dquote EmptyString).
Proof.
  intros Hwf. rewrite _parse_line_lex. split.
  - intros [why Hp].
    destruct (key_value line) as [[key value]|] eqn:Hkv.
    + exists key, value. split; [done|]. apply strip_quotes_Panic.
      rewrite (lex_key_value_line _ _ _ Hkv) in Hp.
      destruct (strip_quotes value) as [v'|w]; [|by eexists].
      destruct (exec_no_panic (TAssign (TrimSpace line) key v') st Hwf) as [x Hx];
        [done | congruence].
    + destruct (exec_no_panic (lex line) st Hwf) as [x Hx]; [|congruence].
      intros w. by apply lex_no_early_panic.
  - intros (key & value & Hkv & Hv). rewrite (lex_key_value_line _ _ _ Hkv).
    apply strip_quotes_Panic in Hv as [w ->]. by exists w.
Qed.

Lemma panics_exactly_on_short_values_witness :
  (∃ why, (_parse_line "k = v" (boot ∅ [])).1 = Panic why) ↔
  ∃ key value, key_value "k = v" = Some (key, value) ∧
               (value = EmptyString ∨ value = String dquote EmptyString).
Proof.
  apply (panics_exactly_on_short_values "k = v" (boot ∅ [])). apply wf_boot.
Defined.

(** X4: a value written between double quotes is stored without that
    one pair of quotes, whatever stands between them (white space at
    the ends and further quotes included). *)
Theorem quoted_value_loses_one_pair line key v st sec :
  wf st → cur_name st = Some sec →
  key_value line = Some (key, quoted v) →
  ∃ st1,
    _parse_line line st = (Ret (true, None), st1) ∧
    Get sec key st1 = (Ret (v, None), st1).
Proof.
  intros Hwf Hcur Hkv.
  destruct (assign_step (TrimSpace line) key v st _ Hwf Hcur)
    as (st1 & Hst1 & Hwf1 & _ & Hf).
  exists st1. split.
  - by rewrite _parse_line_lex, (lex_key_value_line _ _ _ Hkv), strip_quotes_quoted.
  - apply field_of_Get. rewrite Hf. by rewrite decide_True.
Qed.

Lemma quoted_value_loses_one_pair_witness :
  ∃ st1,
    _parse_line ("k = " +:+ quoted (" a " +:+ quoted "b")) st_in_s
      = (Ret (true, None), st1) ∧
    Get "s" "k" st1 = (Ret (" a " +:+ quoted "b", None), st1).
Proof.
  apply (quoted_value_loses_one_pair
           ("k = " +:+ quoted (" a " +:+ quoted "b")) "k" (" a " +:+ quoted "b")
           st_in_s "s").
  - apply wf_st_in_s.
  - vm_compute. reflexivity.
  - vm_compute. reflexivity.
Defined.

(** X5: the first header of a name registers a section without keys:
    [Get] answers [NoSuchKeyError] for every key of it, and answers for
    every other section as before. *)
Theorem first_header_gives_empty_section line sec_name st :
  wf st → TrimSpace line = "[" +:+ sec_name +:+ "]" → sec_name ≠ EmptyString →
  sections (config st) !! sec_name = None →
  ∃ st1,
    _parse_line line st = (Ret (true, None), st1) ∧
    (∀ key, Get sec_name key st1
       = (Ret (EmptyString,
               Some (ErrNoSuchKey {| nske_sec_name := sec_name; nske_key := key |})),
          st1)) ∧
    ∀ sec key, sec ≠ sec_name → (Get sec key st1).1 = (Get sec key st).1.
Proof.
  intros Hwf Hline Hname Hnew.
  destruct (open_section_step sec_name st Hwf) as (st1 & Hst1 & Hwf1 & _ & Hf).
  exists st1.
  assert (Hsec : sections (config st1) = <[sec_name := length (heap st)]> (sections (config st))).
  { rewrite (open_section_new _ _ Hnew) in Hst1. by injection Hst1 as <-. }
  split_and!.
  - by rewrite _parse_line_lex, (lex_bracket _ _ Hline Hname).
  - intros key. rewrite Get_view by done. rewrite Hsec, lookup_insert_eq, Hf.
    unfold field_of. by rewrite Hnew.
  - intros sec key Hne. rewrite !Get_view by done. simpl.
    by rewrite Hsec, lookup_insert_ne, Hf.
Qed.

Lemma first_header_gives_empty_section_witness :
  ∃ st1,
    _parse_line " [t]" st_in_s = (Ret (true, None), st1) ∧
    (∀ key, Get "t" key st1
       = (Ret (EmptyString,
               Some (ErrNoSuchKey {| nske_sec_name := "t"; nske_key := key |})),
          st1)) ∧
    ∀ sec key, sec ≠ "t" → (Get sec key st1).1 = (Get sec key st_in_s).1.
Proof.
  apply (first_header_gives_empty_section " [t]" "t" st_in_s).
  - apply wf_st_in_s.
  - vm_compute. reflexivity.
  - discriminate.
  - vm_compute. reflexivity.
Defined.

(** X6: parsing a line never deletes anything: a section and key for
    which [Get] returned a value still have a value after
    [_parse_line], however the call returns. *)
Theorem parsing_never_deletes line st r st1 sec key v :
  wf st → _parse_line line st = (r, st1) →
  Get sec key st = (Ret (v, None), st) →
  ∃ v', Get sec key st1 = (Ret (v', None), st1).
Proof.
  intros Hwf Hl Hget. apply Get_field_of in Hget.
  destruct r as [[[] e]|w].
  - destruct (_parse_line_step _ _ _ _ Hwf Hl) as [_ Hstep].
    specialize (Hstep [] sec key). simpl in Hstep.
    rewrite Hget in Hstep.
    destruct (last_write sec key _) as [v'|].
    + exists v'. by apply field_of_Get.
    + exists v. by apply field_of_Get.
  - rewrite (_parse_line_unchanged _ _ _ _ Hl) by done.
    exists v. by apply field_of_Get.
  - rewrite (_parse_line_unchanged _ _ _ _ Hl) by done.
    exists v. by apply field_of_Get.
Qed.

Lemma parsing_never_deletes_witness :
  ∃ v', Get "s" "a" (_parse_line "a = 2" (_parse_line "a = 1" st_in_s).2).2
        = (Ret (v', None), (_parse_line "a = 2" (_parse_line "a = 1" st_in_s).2).2).
Proof.
  eapply (parsing_never_deletes "a = 2" (_parse_line "a = 1" st_in_s).2 _ _ "s" "a" "1").
  - eapply (_parse_line_wf "a = 1" st_in_s); [apply wf_st_in_s|].
    apply surjective_pairing.
  - apply surjective_pairing.
  - vm_compute. reflexivity.
Defined.

(** X7: every key that [_parse_line] stores is in trimmed form and
    holds no [=]: the key is what stands before the first [=], and it
    is trimmed before it is stored. *)
Theorem stored_keys_are_clean line st r st1 :
  keys_clean st → _parse_line line st = (r, st1) → keys_clean st1.
Proof.
  intros Hk. rewrite _parse_line_lex.
  destruct (lex line) as [|n|e|l k v|w] eqn:Hlex; simpl.
  - by intros [= _ <-].
  - destruct (sections (config st) !! n) as [p|] eqn:Hp.
    + rewrite (open_section_old _ _ _ Hp). by intros [= _ <-].
    + rewrite (open_section_new _ _ Hp). intros [= _ <-].
      intros p' s k' v'. simpl.
      intros [Hs|[_ Hs]]%lookup_app_Some; [by eapply Hk|].
      destruct (p' - length (heap st)) as [|i]; [|by destruct i].
      injection Hs as <-. simpl. by rewrite lookup_empty.
  - by intros [= _ <-].
  - pose proof (lex_assign_no_equals _ _ _ _ Hlex) as Hne.
    apply lex_assign_inv in Hlex as (_ & Htrim & _).
    unfold assign, bind, gets, ret. simpl.
    destruct (in_sec _); simpl; [|by intros [= _ <-]].
    destruct (cur_sec _) as [p|]; simpl; [|by intros [= _ <-]].
    intros [= _ <-]. intros p' s' k' v'. simpl.
    destruct (heap st !! p) as [s|] eqn:Hs; [|apply Hk].
    destruct (decide (p = p')) as [<-|Hp].
    + rewrite list_lookup_insert_eq by by eapply lookup_lt_Some.
      intros [= <-]. simpl. destruct (decide (k = k')) as [<-|Hkk].
      * done.
      * rewrite lookup_insert_ne by done. by eapply Hk.
    + rewrite list_lookup_insert_ne by done. apply Hk.
  - by intros [= _ <-].
Qed.

Lemma stored_keys_are_clean_witness :
  keys_clean (_parse_line "  a b  = c=d" st_in_s).2.
Proof.
  eapply (stored_keys_are_clean "  a b  = c=d" st_in_s).
  - eapply (stored_keys_are_clean "[s]" (boot ∅ [])).
    + intros p s k v Hp. by destruct p.
    + apply surjective_pairing.
  - apply surjective_pairing.
Defined.

(** X8: when [_parse_line] refuses a line, the loop of [_parse_file]
    stops at once: it returns a [ConfFileError] with the file name, the
    trimmed line and one of the four messages; the state is as it was
    before the line, and what the reader holds after the line is not
    looked at. *)
Theorem line_failure_stops_file fname line br st e st1 :
  _parse_line line st = (Ret (false, e), st1) →
  ∃ msg, msg ∈ line_messages ∧
    _parse_file_loop fname ((line, None) :: br) st
      = (Ret (false,
              Some (ErrConfFile
                      {| cfe_fname := fname;
                         cfe_error := Some {| cle_line := TrimSpace line;
                                              cle_error := msg |} |})),
         st).
Proof.
  intros H. destruct (_parse_line_failure _ _ _ _ H) as (-> & msg & Hmsg & ->).
  exists msg. split; [done|]. simpl. unfold _parse_file_round, bind.
  by rewrite H.
Qed.

Lemma line_failure_stops_file_witness :
  ∃ msg, msg ∈ line_messages ∧
    _parse_file_loop "f" [(" =v ", None); ("[s]", None)] (boot ∅ [])
      = (Ret (false,
              Some (ErrConfFile
                      {| cfe_fname := "f";
                         cfe_error := Some {| cle_line := TrimSpace " =v ";
                                              cle_error := msg |} |})),
         boot ∅ []).
Proof.
  eapply (line_failure_stops_file "f" " =v " [("[s]", None)] (boot ∅ [])).
  vm_compute. reflexivity.
Defined.

End line_properties.

(** ** [NewConfig], [_open_files] and [Parse_conf] *)

Section driver_properties.

Implicit Types (st : State) (order : list string).

Lemma _open_files_body_open k st rs :
  conf_files (config st) !! k = Some None → open_result (disk st) k = inr rs →
  _open_files_body k st =
    (Ret None,
     set_config (set_conf_files <[k := Some (length (ftable st))]>)
       (set_ftable (λ t, t ++ [{| fpath_of := k; reads := rs; closes := 0 |}]) st)).
Proof.
  intros Hc Hd. unfold _open_files_body, bind, gets. simpl. rewrite Hc.
  unfold os_Open. by rewrite Hd.
Qed.

Lemma _open_files_body_fail k st reason :
  conf_files (config st) !! k = Some None → open_result (disk st) k = inl reason →
  _open_files_body k st =
    (Ret (Some (false, Some (open_error k reason))),
     set_console (λ out, out ++ ["[ERROR] " +:+ Error (open_error k reason)]) st).
Proof.
  intros Hc Hd. unfold _open_files_body, bind, gets. simpl. rewrite Hc.
  unfold os_Open. by rewrite Hd.
Qed.

Lemma _open_files_body_skip k st :
  conf_files (config st) !! k ≠ Some None →
  _open_files_body k st = (Ret None, st).
Proof.
  intros Hc. unfold _open_files_body, bind, gets. simpl.
  by destruct (conf_files (config st) !! k) as [[fd|]|].
Qed.

(** When [os.Open] fails on a key that is still to be opened, the loop
    of [_open_files] fails at the first such key it meets. *)
Lemma _open_files_loop_missing order st p reason :
  p ∈ order → conf_files (config st) !! p = Some None →
  open_result (disk st) p = inl reason →
  ∃ q why st1,
    q ∈ order ∧ open_result (disk st) q = inl why ∧
    for_range order _open_files_body st
      = (Ret (Some (false, Some (open_error q why))), st1) ∧
    same_store st st1 ∧
    console st1 = console st ++ ["[ERROR] " +:+ Error (open_error q why)].
Proof.
  revert st. induction order as [|k order IH]; intros st Hp Hnil Hdisk.
  - by apply elem_of_nil in Hp.
  - simpl. unfold bind.
    destruct (decide (conf_files (config st) !! k = Some None)) as [Hc|Hc].
    + destruct (open_result (disk st) k) as [why|rs] eqn:Hd.
      * rewrite (_open_files_body_fail _ _ _ Hc Hd).
        eexists k, why, _. split_and!; [left|done..].
      * rewrite (_open_files_body_open _ _ _ Hc Hd).
        assert (Hpk : p ≠ k) by (intros ->; congruence).
        apply elem_of_cons in Hp as [?|Hp]; [done|].
        destruct (IH (set_config (set_conf_files <[k := Some (length (ftable st))]>)
                        (set_ftable (λ t, t ++ [{| fpath_of := k; reads := rs;
                                                   closes := 0 |}]) st)))
          as (q & why & st1 & Hq & Hdq & -> & Hs & Hcon); [done| |done|].
        { simpl. by rewrite lookup_insert_ne. }
        exists q, why, st1. split_and!; [by right|done..].
    + rewrite (_open_files_body_skip _ _ Hc).
      apply elem_of_cons in Hp as [->|Hp]; [done|].
      destruct (IH st) as (q & why & st1 & Hq & Hdq & -> & Hs & Hcon); [done..|].
      exists q, why, st1. split_and!; [by right|done..].
Qed.

(** After a loop of [_open_files] that ran to its end, no key it met
    is left unopened, and no key that was open is unopened. *)
Lemma _open_files_loop_all_open order st st1 :
  for_range order _open_files_body st = (Ret None, st1) →
  (∀ k, k ∈ order → conf_files (config st1) !! k ≠ Some None) ∧
  (∀ k, conf_files (config st) !! k ≠ Some None →
        conf_files (config st1) !! k ≠ Some None).
Proof.
  revert st. induction order as [|k order IH]; intros st; simpl.
  - intros [= <-]. split; [|done]. intros k Hk. by apply elem_of_nil in Hk.
  - unfold bind. destruct (_open_files_body k st) as [r' st'] eqn:Hk.
    apply _open_files_body_cases in Hk
      as [(rs & Hc & Hd & -> & ->)|[(e & msg & -> & ->)|(Hc & -> & ->)]].
    + intros [H1 H2]%IH. split.
      * intros k' [->|?]%elem_of_cons; [|by apply H1].
        apply H2. simpl. by rewrite lookup_insert_eq.
      * intros k' Hk'. apply H2. simpl.
        destruct (decide (k = k')) as [<-|?]; [by rewrite lookup_insert_eq|].
        by rewrite lookup_insert_ne.
    + done.
    + intros [H1 H2]%IH. split; [|done].
      intros k' [->|?]%elem_of_cons; [by apply H2 | by apply H1].
Qed.

Lemma _open_files_loop_skip order st :
  (∀ k, conf_files (config st) !! k ≠ Some None) →
  for_range order _open_files_body st = (Ret None, st).
Proof.
  intros H. induction order as [|k order IH]; simpl; [done|].
  unfold bind, _open_files_body at 1, bind, gets. simpl.
  specialize (H k). by destruct (conf_files (config st) !! k) as [[fd|]|].
Qed.

(** The loop of [_parse_file] answers success with no error, and
    failure with an error that is not [io.EOF]. *)
Lemma _parse_file_loop_result fname br st b e st1 :
  _parse_file_loop fname br st = (Ret (b, e), st1) →
  (b = true ∧ e = None) ∨ (b = false ∧ ∃ err, e = Some err ∧ err ≠ EOF).
Proof.
  revert st. induction br as [|[line err] br IH]; intros st; simpl.
  - unfold _parse_file_round, bind. rewrite _parse_line_empty. simpl.
    intros [= <- <- _]. by left.
  - unfold _parse_file_round, bind. destruct err as [err|].
    + destruct err; simpl;
        try (intros [= <- <- _]; right; split; [done|]; by eexists).
      destruct (_parse_line line st) as [[[[] e']|] st'] eqn:Hl; simpl; [| |done].
      * intros [= <- <- _]. by left.
      * intros [= <- <- _]. right. split; [done|]. by eexists.
    + destruct (_parse_line line st) as [[[[] e']|] st'] eqn:Hl; simpl; [| |done].
      * apply IH.
      * intros [= <- <- _]. right. split; [done|]. by eexists.
Qed.

Lemma Parse_conf_body_result k st r st' :
  Parse_conf_body k st = (Ret (Some r), st') →
  r.1 = false ∧ ∃ err, r.2 = Some err ∧ err ≠ EOF.
Proof.
  unfold Parse_conf_body, bind, gets. simpl.
  destruct (conf_files (config st) !! k) as [fobj|]; [|done].
  destruct (_parse_file k fobj st) as [[[[] e]|] st1] eqn:Hf; simpl; [done| |done].
  intros [= <- <-]. split; [done|]. simpl.
  destruct fobj as [fd|]; simpl in Hf; [|done].
  revert Hf. unfold bind, gets. simpl. destruct (ftable st !! fd) as [f|]; [|done].
  intros Hf. by destruct (_parse_file_loop_result _ _ _ _ _ _ Hf) as [[? _]|[_ ?]].
Qed.

Lemma _open_files_body_result k st r st' :
  _open_files_body k st = (Ret (Some r), st') →
  r.1 = false ∧ ∃ err, r.2 = Some err ∧ err ≠ EOF.
Proof.
  unfold _open_files_body, bind, gets. simpl.
  destruct (conf_files (config st) !! k) as [[fd|]|]; [done| |done].
  unfold os_Open. destruct (open_result (disk st) k); simpl; [|done].
  intros [= <- _]. split; [done|]. by eexists.
Qed.

(** [_parse_line] writes nothing to the console. *)
Lemma _parse_line_console line st r st1 :
  _parse_line line st = (r, st1) → console st1 = console st.
Proof.
  rewrite _parse_line_lex. destruct (lex line) as [|n|e|l k v|w]; simpl.
  - by intros [= _ <-].
  - unfold open_section, bind, gets, ret. simpl.
    destruct (sections (config st) !! n); by intros [= _ <-].
  - by intros [= _ <-].
  - unfold assign, bind, gets, ret. simpl.
    destruct (in_sec _); simpl; [|by intros [= _ <-]].
    destruct (cur_sec _); simpl; by intros [= _ <-].
  - by intros [= _ <-].
Qed.

(** The loop of [_parse_file] writes one line to the console when it
    returns a read error, and nothing otherwise. *)
Lemma _parse_file_loop_console fname br st r st1 :
  _parse_file_loop fname br st = (r, st1) →
  console st1 = console st ∨
  ((∃ e, r = Ret (false, e)) ∧ ∃ msg, console st1 = console st ++ [msg]).
Proof.
  revert st. induction br as [|[line err] br IH]; intros st; simpl.
  - unfold _parse_file_round, bind. rewrite _parse_line_empty. simpl.
    intros [= _ <-]. by left.
  - unfold _parse_file_round, bind. destruct err as [err|].
    + destruct err; simpl;
        try (intros [= <- <-]; right; split; by eexists).
      destruct (_parse_line line st) as [[[[] e']|] st'] eqn:Hl; simpl;
        intros [= _ <-]; left; by eapply _parse_line_console.
    + destruct (_parse_line line st) as [[[[] e']|] st'] eqn:Hl; simpl.
      * intros H. rewrite <- (_parse_line_console _ _ _ _ Hl). by apply IH.
      * intros [= _ <-]. left. by eapply _parse_line_console.
      * intros [= _ <-]. left. by eapply _parse_line_console.
Qed.

Lemma Parse_conf_body_console k st r st1 :
  Parse_conf_body k st = (r, st1) →
  console st1 = console st ∨
  ((∃ x, r = Ret (Some x)) ∧ ∃ msg, console st1 = console st ++ [msg]).
Proof.
  unfold Parse_conf_body, bind, gets. simpl.
  destruct (conf_files (config st) !! k) as [[fd|]|]; simpl;
    [|intros [= _ <-]; by left|intros [= _ <-]; by left].
  unfold bind, gets. simpl. destruct (ftable st !! fd) as [f|]; simpl;
    [|intros [= _ <-]; by left].
  destruct (_parse_file_loop k (reads f) st) as [r' st'] eqn:Hf.
  destruct (_parse_file_loop_console _ _ _ _ _ Hf) as [Hc|[[e ->] Hc]].
  - destruct r' as [[[] e]|w]; simpl; intros [= _ <-]; by left.
  - simpl. intros [= <- <-]. right. split; [by eexists | done].
Qed.

Lemma for_range_console order (body : string → M (option (bool * option error))) st r st1 :
  (∀ k st r st1, body k st = (r, st1) →
     console st1 = console st ∨
     ((∃ x, r = Ret (Some x)) ∧ ∃ msg, console st1 = console st ++ [msg])) →
  for_range order body st = (r, st1) →
  console st1 = console st ∨
  ((∃ x, r = Ret (Some x)) ∧ ∃ msg, console st1 = console st ++ [msg]).
Proof.
  intros Hbody. revert st. induction order as [|k order IH]; intros st; simpl.
  - intros [= _ <-]. by left.
  - unfold bind. destruct (body k st) as [r' st'] eqn:Hk.
    destruct (Hbody _ _ _ _ Hk) as [Hc|[[x ->] Hc]].
    + destruct r' as [[x|]|w]; simpl.
      * intros [= <- <-]. by left.
      * rewrite <- Hc. apply IH.
      * intros [= <- <-]. by left.
    + simpl. intros [= <- <-]. right. split; [by eexists | done].
Qed.

Lemma _open_files_body_console k st r st1 :
  _open_files_body k st = (r, st1) →
  console st1 = console st ∨
  ((∃ x, r = Ret (Some x)) ∧ ∃ msg, console st1 = console st ++ [msg]).
Proof.
  intros H. apply _open_files_body_cases in H
    as [(rs & _ & _ & -> & ->)|[(e & msg & -> & ->)|(_ & -> & ->)]].
  - by left.
  - right. split; by eexists.
  - by left.
Qed.

End driver_properties.

Section driver_theorems.

Implicit Types (st : State) (order : list string).

(** X9: when [os.Open] fails on one of the paths, be it missing or
    not to be opened, [Parse_conf] fails with the open error of a path
    on which [os.Open] fails (the first one the loop of [_open_files]
    meets), whatever the other files hold: no line of any file is
    parsed (the store stays empty), and the console gets the one line
    of that error. *)
Theorem failed_open_parses_nothing d files order1 order2 order3 p reason :
  range_order (conf_files (NewConfig files)) order1 →
  p ∈ files → open_result d p = inl reason →
  ∃ q why st',
    q ∈ files ∧ open_result d q = inl why ∧
    Parse_conf order1 order2 order3 (boot d files)
      = (Ret (false, Some (open_error q why)), st') ∧
    sections (config st') = ∅ ∧ heap st' = [] ∧
    console st' = ["[ERROR] " +:+ Error (open_error q why)].
Proof.
  intros Hord%range_order_NewConfig Hp Hd. destruct Hord as [_ Hin].
  destruct (_open_files_loop_missing order1 (boot d files) p reason)
    as (q & why & st1 & Hq & Hdq & Hloop & Hstore & Hcon); [by apply Hin| |done|].
  { change (config (boot d files)) with (NewConfig files).
    by rewrite NewConfig_lookup, decide_True. }
  destruct (finalize_loop order3 st1) as (st' & Hfin & Hc & Hh & _ & Ho & _).
  exists q, why, st'. split_and!.
  - by apply Hin.
  - done.
  - unfold Parse_conf, _open_files, bind at 1, bind at 1. rewrite Hloop. simpl.
    unfold defer, finalize, bind. simpl. by rewrite Hfin.
  - rewrite Hc. by destruct Hstore as (_ & -> & _).
  - rewrite Hh. by destruct Hstore as (-> & _).
  - by rewrite Ho, Hcon.
Qed.

Lemma failed_open_parses_nothing_witness :
  ∃ q why st',
    q ∈ ["a"; "b"; "zz"] ∧ open_result disk_locked q = inl why ∧
    Parse_conf ["b"; "a"; "zz"] ["zz"; "a"; "b"] ["a"; "b"; "zz"]
      (boot disk_locked ["a"; "b"; "zz"])
      = (Ret (false, Some (open_error q why)), st') ∧
    sections (config st') = ∅ ∧ heap st' = [] ∧
    console st' = ["[ERROR] " +:+ Error (open_error q why)].
Proof.
  apply (failed_open_parses_nothing disk_locked ["a"; "b"; "zz"] ["b"; "a"; "zz"]
           ["zz"; "a"; "b"] ["a"; "b"; "zz"] "zz" "no such file or directory").
  - apply range_order_NewConfig_perm, perm_swap.
  - do 2 right. left.
  - vm_compute. reflexivity.
Defined.

(** X10: [NewConfig] keeps the set of the paths and nothing else: two
    lists with the same paths, in any order and with any repetitions,
    give the same [Config], with every path unopened. *)
Theorem NewConfig_forgets_order files1 files2 :
  (∀ k, k ∈ files1 ↔ k ∈ files2) →
  NewConfig files1 = NewConfig files2 ∧
  ∀ k, conf_files (NewConfig files1) !! k
       = if decide (k ∈ files2) then Some None else None.
Proof.
  intros H.
  assert (Hk : ∀ k, conf_files (NewConfig files1) !! k
                    = if decide (k ∈ files2) then Some None else None).
  { intros k. rewrite NewConfig_lookup.
    destruct (decide (k ∈ files1)) as [H1|H1];
      destruct (decide (k ∈ files2)) as [H2|H2]; try done.
    - destruct H2. by apply H.
    - destruct H1. by apply H. }
  split; [|done].
  assert (Hc : conf_files (NewConfig files1) = conf_files (NewConfig files2)).
  { apply map_eq. intros k. by rewrite Hk, NewConfig_lookup. }
  unfold NewConfig in *. simpl in Hc. by rewrite Hc.
Qed.

Lemma NewConfig_forgets_order_witness :
  NewConfig ["a"; "b"; "a"] = NewConfig ["b"; "a"] ∧
  ∀ k, conf_files (NewConfig ["a"; "b"; "a"]) !! k
       = if decide (k ∈ ["b"; "a"]) then Some None else None.
Proof.
  apply (NewConfig_forgets_order ["a"; "b"; "a"] ["b"; "a"]).
  intros k. rewrite !elem_of_cons, elem_of_nil. tauto.
Defined.

(** X11: [_open_files] opens only what is not open: after a
    successful [_open_files] on a fresh [Config], a second
    [_open_files] succeeds and changes nothing, whatever the
    enumeration. *)
Theorem open_files_twice d files order1 order st1 :
  range_order (conf_files (NewConfig files)) order1 →
  _open_files order1 (boot d files) = (Ret (true, None), st1) →
  _open_files order st1 = (Ret (true, None), st1).
Proof.
  intros [_ Hord]. unfold _open_files, bind.
  destruct (for_range order1 _open_files_body (boot d files))
    as [[[x|]|] st'] eqn:Hloop; simpl; [| |done].
  { pose proof (for_range_Some (λ r, r.1 = false) _ _ _ _ _
                  _open_files_body_false Hloop) as Hx.
    destruct x as [b e]. simpl in Hx. subst b. done. }
  intros [= <-].
  destruct (_open_files_loop_frame _ _ _ _ Hloop) as (_ & _ & Hdom).
  destruct (_open_files_loop_all_open _ _ _ Hloop) as [Hall _].
  rewrite _open_files_loop_skip; [done|].
  intros k Hk. apply (Hall k); [|done]. apply Hord.
  change (NewConfig files) with (config (boot d files)).
  apply Hdom. by rewrite Hk.
Qed.

Lemma open_files_twice_witness :
  _open_files ["b"; "a"] (_open_files ["a"; "b"] (boot disk_ab ["a"; "b"])).2
    = (Ret (true, None), (_open_files ["a"; "b"] (boot disk_ab ["a"; "b"])).2).
Proof.
  apply (open_files_twice disk_ab ["a"; "b"] ["a"; "b"] ["b"; "a"]).
  - apply range_order_NewConfig_perm. reflexivity.
  - vm_compute. reflexivity.
Defined.

(** X12: the two results of [Parse_conf] agree: with [true] the error
    is [nil]; with [false] there is an error, and it is never [io.EOF]
    (the end of a file is not a failure). *)
Theorem Parse_conf_results_agree order1 order2 order3 st b e st' :
  Parse_conf order1 order2 order3 st = (Ret (b, e), st') →
  (b = true ∧ e = None) ∨ (b = false ∧ ∃ err, e = Some err ∧ err ≠ EOF).
Proof.
  unfold Parse_conf, _open_files, bind at 1, bind at 1.
  destruct (for_range order1 _open_files_body st) as [[[x|]|] st1] eqn:H1;
    simpl; [| |done].
  - destruct (for_range_Some (λ r, r.1 = false ∧ ∃ err, r.2 = Some err ∧ err ≠ EOF)
                _ _ _ _ _ _open_files_body_result H1) as [Hb He].
    destruct x as [b' e']. simpl in Hb, He. subst b'. simpl. unfold defer. simpl.
    destruct (finalize_run order3 st1) as (st3 & -> & _).
    intros [= <- <- _]. by right.
  - unfold defer, bind.
    destruct (for_range order2 Parse_conf_body st1) as [[[x|]|] st2] eqn:H2; simpl.
    + destruct (for_range_Some (λ r, r.1 = false ∧ ∃ err, r.2 = Some err ∧ err ≠ EOF)
                  _ _ _ _ _ Parse_conf_body_result H2) as [Hb He].
      destruct x as [b' e']. simpl in Hb, He. subst b'.
      destruct (finalize_run order3 st2) as (st3 & -> & _).
      intros [= <- <- _]. by right.
    + destruct (finalize_run order3 st2) as (st3 & -> & _).
      intros [= <- <- _]. by left.
    + destruct (finalize_run order3 st2) as (st3 & -> & _). done.
Qed.

Lemma Parse_conf_results_agree_witness :
  (false = true ∧
   Some (ErrConfFile
           {| cfe_fname := "a";
              cfe_error := Some {| cle_line := "k = 1"; cle_error := msg_no_section |} |})
     = None) ∨
  (false = false ∧
   ∃ err,
     Some (ErrConfFile
             {| cfe_fname := "a";
                cfe_error := Some {| cle_line := "k = 1"; cle_error := msg_no_section |} |})
       = Some err ∧ err ≠ EOF).
Proof.
  eapply (Parse_conf_results_agree ["a"] ["a"] ["a"]
            (boot (<["a" := inr [("k = 1", None)]]> ∅) ["a"])).
  vm_compute. reflexivity.
Defined.

(** X13: [Parse_conf] writes at most one line to the console, and
    none when it succeeds: only a failed open and a read error are
    logged, and each ends the call. *)
Theorem Parse_conf_logs_at_most_once order1 order2 order3 st r st' :
  Parse_conf order1 order2 order3 st = (r, st') →
  (console st' = console st ∨ ∃ msg, console st' = console st ++ [msg]) ∧
  (∀ e, r = Ret (true, e) → console st' = console st).
Proof.
  intros Hparse.
  assert (Hdefer : ∀ (body : M (bool * option error)) st1 r' st2,
    defer (finalize order3) body st1 = (r', st2) →
    ∃ st3, body st1 = (r', st3) ∧ console st2 = console st3).
  { intros body st1 r' st2. unfold defer.
    destruct (body st1) as [r2 st3] eqn:Hb.
    destruct (finalize_loop order3 st3) as (st4 & Hfin & _ & _ & _ & Ho & _).
    unfold finalize, bind. rewrite Hfin. intros [= <- <-]. by exists st3. }
  revert Hparse. unfold Parse_conf, _open_files, bind at 1, bind at 1.
  destruct (for_range order1 _open_files_body st) as [r1 st1] eqn:H1.
  pose proof (for_range_console _ _ _ _ _ _open_files_body_console H1) as Hc1.
  destruct r1 as [[[b1 e1]|]|w]; simpl.
  - pose proof (for_range_Some (λ r, r.1 = false) _ _ _ _ _
                  _open_files_body_false H1) as Hb. simpl in Hb. subst b1. simpl.
    intros (st3 & [= <- <-] & ->)%Hdefer. split; [|done].
    destruct Hc1 as [->|[_ [msg ->]]]; [by left | right; by eexists].
  - destruct Hc1 as [Hc1|[[x [=]] _]].
    intros (st3 & Hbody & ->)%Hdefer. revert Hbody. unfold bind.
    destruct (for_range order2 Parse_conf_body st1) as [r2 st2] eqn:H2.
    pose proof (for_range_console _ _ _ _ _ Parse_conf_body_console H2) as Hc2.
    rewrite Hc1 in Hc2.
    destruct r2 as [[[b2 e2]|]|w]; simpl.
    + pose proof (for_range_Some (λ r, r.1 = false) _ _ _ _ _
                    Parse_conf_body_false H2) as Hb. simpl in Hb. subst b2.
      intros [= <- <-]. split; [|done].
      destruct Hc2 as [->|[_ [msg ->]]]; [by left | right; by eexists].
    + destruct Hc2 as [Hc2|[[x [=]] _]]. intros [= <- <-].
      split; [by left | done].
    + destruct Hc2 as [Hc2|[[x [=]] _]]. intros [= <- <-].
      split; [by left | done].
  - intros [= <- <-]. destruct Hc1 as [Hc1|[[x [=]] _]]. split; [by left | done].
Qed.

Lemma Parse_conf_logs_at_most_once_witness :
  let run := Parse_conf ["a"] ["a"] ["a"]
               (boot (<["a" := inr [("[s]", None); (EmptyString, Some (IOError "boom"))]]> ∅)
                  ["a"]) in
  (console run.2 = [] ∨ ∃ msg, console run.2 = [] ++ [msg]) ∧
  (∀ e, run.1 = Ret (true, e) → console run.2 = []).
Proof.
  eapply (Parse_conf_logs_at_most_once ["a"] ["a"] ["a"]
            (boot (<["a" := inr [("[s]", None); (EmptyString, Some (IOError "boom"))]]> ∅)
                  ["a"])).
  apply surjective_pairing.
Defined.

End driver_theorems.

(** ** What never happens on a line *)

Section never.

Implicit Types (st : State).

(** When stripping runes leaves nothing, the bytes end with one of the
    runes (or there were none). *)
Lemma trim_runes_nil n rs s :
  trim_runes n rs s = [] → s = [] ∨ ∃ r, r ∈ rs ∧ r `suffix_of` s.
Proof.
  revert s. induction n as [|n IH]; intros s; simpl; [by left|].
  destruct (strip_rune rs s) as [s'|] eqn:Hs; [|by left].
  apply strip_rune_Some in Hs as (r & Hr & ->).
  intros [->|(r' & Hr' & Hsuf)]%IH; right.
  - exists r. split; [done|]. by rewrite app_nil_r.
  - exists r'. split; [done|]. by apply suffix_app_r.
Qed.

(** Bytes that do not start with white space are not trimmed away. *)
Lemma trim_right_nonempty u :
  strip_rune space_runes u = None → u ≠ [] → trim_right u ≠ [].
Proof.
  intros Hu Hne Hnil. unfold trim_right in Hnil.
  apply (f_equal reverse) in Hnil. rewrite reverse_involutive in Hnil.
  change (reverse (@nil ascii)) with (@nil ascii) in Hnil.
  apply trim_runes_nil in Hnil as [Hnil|(r & Hr & [k Hk])].
  - apply (f_equal reverse) in Hnil. by rewrite reverse_involutive in Hnil.
  - apply list_elem_of_fmap in Hr as (enc & -> & Henc).
    rewrite strip_rune_None in Hu. apply (Hu enc Henc).
    exists (reverse k). apply (f_equal reverse) in Hk.
    by rewrite reverse_involutive, reverse_app, reverse_involutive in Hk.
Qed.

(** What [TrimSpace] returns does not start with white space. *)
Lemma TrimSpace_no_leading_space s :
  strip_rune space_runes (bytes (TrimSpace s)) = None.
Proof.
  unfold TrimSpace. rewrite bytes_of_bytes.
  eapply strip_rune_None_prefix; [|apply trim_right_prefix].
  apply trim_runes_done; [apply space_runes_nonempty | done].
Qed.

(** A non-empty beginning of a trimmed line does not trim to nothing. *)
Lemma TrimSpace_prefix_nonempty line n :
  0 < n → n ≤ String.length (TrimSpace line) →
  TrimSpace (String.substring 0 n (TrimSpace line)) ≠ EmptyString.
Proof.
  intros Hn Hlen Hempty.
  set (l := TrimSpace line) in *.
  assert (Hu : strip_rune space_runes (take n (bytes l)) = None).
  { eapply strip_rune_None_prefix; [apply TrimSpace_no_leading_space|].
    apply prefix_take. }
  apply (f_equal bytes) in Hempty. unfold TrimSpace in Hempty.
  rewrite bytes_of_bytes, bytes_substring_0 in Hempty.
  rewrite (trim_left_fixed _ Hu) in Hempty.
  apply (trim_right_nonempty _ Hu); [|done].
  intros Hnil. apply (f_equal length) in Hnil. rewrite length_take in Hnil.
  assert (length (bytes l) = String.length l) as Hl.
  { clear. induction l as [|c l IH]; simpl; [done | by rewrite IH]. }
  simpl in Hnil. lia.
Qed.

(** The test of line 139 never holds. *)
Lemma lex_never_empty_key line e :
  lex line = TError e → cle_error e ∈ [msg_empty_section; msg_invalid_line].
Proof.
  unfold lex. case_bool_decide; [|done]. cbv zeta.
  case_bool_decide; [|done].
  destruct (is_bounded _ _ _) as [[]|]; [| |done].
  - unfold lex_header. destruct (slice _ _ _) as [n|]; [|done].
    case_bool_decide; [|done]. intros [= <-]. simpl. left.
  - unfold lex_key_value. cbv zeta. case_bool_decide as Hpos.
    { intros [= <-]. simpl. right. left. }
    pose proof (Index_bounds (TrimSpace line) "=") as Hb.
    change (len "=") with 1%Z in Hb.
    unfold slice_to, slice. rewrite bool_decide_eq_true_2 by lia.
    rewrite Z.sub_0_r. change (Z.to_nat 0) with 0.
    case_bool_decide as Hkey.
    { apply len_0 in Hkey. apply TrimSpace_prefix_nonempty in Hkey; [done| |].
      - lia.
      - unfold len in Hb. lia. }
    destruct (slice_from _ _); [|done]. by destruct (strip_quotes _).
Qed.

(** A string that is not empty is a string and a last byte. *)
Lemma string_snoc s :
  s ≠ EmptyString → ∃ t c, s = t +:+ String c EmptyString.
Proof.
  induction s as [|a s IH]; [done|]. intros _.
  destruct s as [|b s].
  - by exists EmptyString, a.
  - destruct IH as (t & c & ->); [done|]. by exists (String a t), c.
Qed.

Lemma lex_header_form line sec_name :
  lex line = THeader sec_name → TrimSpace line = "[" +:+ sec_name +:+ "]".
Proof.
  unfold lex. case_bool_decide; [|done]. cbv zeta.
  case_bool_decide; [|done].
  destruct (is_bounded (TrimSpace line) "[" "]") as [[]|] eqn:Hb; [| |done].
  - assert (Hne : "["%char ≠ "]"%char) by done.
    pose proof (is_bounded_true_len _ _ _ Hne Hb) as Hlen.
    unfold lex_header, slice. rewrite bool_decide_eq_true_2 by lia.
    case_bool_decide; [done|]. intros [= <-].
    revert Hb Hlen. generalize (TrimSpace line). intros l.
    unfold is_bounded, at_, len, byte_eq. intros Hb Hlen.
    destruct l as [|a l]; [simpl in Hlen; lia|].
    rewrite bool_decide_eq_true_2 in Hb by (simpl; lia). simpl in Hb.
    case_bool_decide as Ha; [subst a|done].
    destruct (string_snoc l) as (t & z & ->).
    { intros ->. simpl in Hlen. lia. }
    simpl String.length in *. rewrite length_bracket in *.
    rewrite bool_decide_eq_true_2 in Hb by lia.
    replace (Z.to_nat (Z.of_nat (S (S (String.length t))) - 1))
      with (S (String.length t)) in Hb by lia.
    simpl in Hb. rewrite get_bracket_last in Hb.
    injection Hb as Hb. apply bool_decide_eq_true_1 in Hb. subst z.
    replace (Z.to_nat (Z.of_nat (S (S (String.length t))) - 1 - 1))
      with (String.length t) by lia.
    change (Z.to_nat 1) with 1. simpl. by rewrite substring_bracket.
  - unfold lex_key_value. cbv zeta. case_bool_decide; [done|].
    destruct (slice_to _ _); [|done]. case_bool_decide; [done|].
    destruct (slice_from _ _); [|done]. by destruct (strip_quotes _).
Qed.

(** X14: the error "key cannot be empty" is never returned: the line
    is trimmed before the first [=] is looked for, so a key that stands
    before an [=] past position 0 begins with a byte that is not
    white space.  A refused line carries one of the other three
    messages. *)
Theorem empty_key_error_never_returned line st e st1 :
  _parse_line line st = (Ret (false, Some e), st1) →
  cle_error e ∈ [msg_empty_section; msg_invalid_line; msg_no_section].
Proof.
  rewrite _parse_line_lex.
  destruct (lex line) as [|n|e'|l k v|w] eqn:Hlex; simpl.
  - done.
  - unfold open_section, bind, gets, ret. simpl.
    by destruct (sections (config st) !! n).
  - apply lex_never_empty_key in Hlex. intros [= <- _].
    rewrite !elem_of_cons, elem_of_nil in Hlex. rewrite !elem_of_cons. tauto.
  - unfold assign, bind, gets, ret. simpl.
    destruct (in_sec _); simpl.
    + by destruct (cur_sec _).
    + intros [= <- _]. simpl. do 2 right. left.
  - done.
Qed.

Lemma empty_key_error_never_returned_witness :
  cle_error {| cle_line := "="; cle_error := msg_invalid_line |}
    ∈ [msg_empty_section; msg_invalid_line; msg_no_section].
Proof.
  eapply (empty_key_error_never_returned "   =  " (boot ∅ [])).
  vm_compute. reflexivity.
Defined.

(** X15: only a header line switches or registers a section: when
    [_parse_line] changes the map of the sections or the parser state,
    the line trims to a name between brackets, and the name is not
    empty.  A key/value line changes fields only. *)
Theorem only_headers_touch_sections line st r st1 :
  _parse_line line st = (r, st1) →
  sections (config st1) ≠ sections (config st) ∨
  _pstate (config st1) ≠ _pstate (config st) →
  ∃ sec_name, sec_name ≠ EmptyString ∧
              TrimSpace line = "[" +:+ sec_name +:+ "]".
Proof.
  rewrite _parse_line_lex.
  destruct (lex line) as [|n|e'|l k v|w] eqn:Hlex; simpl.
  - intros [= _ <-] [?|?]; done.
  - intros _ _. exists n. split; [by eapply lex_header_inv | by apply lex_header_form].
  - intros [= _ <-] [?|?]; done.
  - unfold assign, bind, gets, ret. simpl.
    destruct (in_sec _); simpl; [|intros [= _ <-] [?|?]; done].
    destruct (cur_sec _); simpl; intros [= _ <-] [?|?]; done.
  - intros [= _ <-] [?|?]; done.
Qed.

Lemma only_headers_touch_sections_witness :
  ∃ sec_name, sec_name ≠ EmptyString ∧
              TrimSpace " [a=b] " = "[" +:+ sec_name +:+ "]".
Proof.
  eapply (only_headers_touch_sections " [a=b] " (boot ∅ [])).
  - apply surjective_pairing.
  - right. vm_compute. discriminate.
Defined.

End never.

(** ** The value a key/value line stores *)

Section stored_value.

Implicit Types (st : State).

(** A string bounded by [c] and [c'], with the middle [n]. *)
Lemma bounded_form s c c' n :
  is_bounded s c c' = Ret true → slice s 1 (len s - 1) = Ret n →
  s = String c (n +:+ String c' EmptyString).
Proof.
  unfold slice. case_bool_decide as Hlen; [|done]. intros Hb [= <-].
  revert Hb. unfold is_bounded, at_, byte_eq.
  destruct s as [|a l]; [unfold len in Hlen; simpl in Hlen; lia|].
  rewrite bool_decide_eq_true_2 by (unfold len; simpl; lia). simpl.
  case_bool_decide as Ha; [subst a|done].
  destruct (string_snoc l) as (t & z & ->).
  { intros ->. unfold len in Hlen. simpl in Hlen. lia. }
  unfold len. simpl String.length. rewrite length_bracket.
  rewrite bool_decide_eq_true_2 by lia.
  replace (Z.to_nat (Z.of_nat (S (S (String.length t))) - 1))
    with (S (String.length t)) by lia.
  simpl. rewrite get_bracket_last. intros [= Hz].
  apply bool_decide_eq_true_1 in Hz. subst z.
  replace (Z.to_nat (Z.of_nat (S (S (String.length t))) - 1 - 1))
    with (String.length t) by lia.
  change (Z.to_nat 1) with 1. simpl. by rewrite substring_bracket.
Qed.

(** What lines 144 to 146 return is the value, or its middle when it
    is quoted. *)
Lemma strip_quotes_Ret value v :
  strip_quotes value = Ret v →
  (∀ w, value = quoted w → v = w) ∧ ((∀ w, value ≠ quoted w) → v = value).
Proof.
  intros H. split.
  - intros w ->. rewrite strip_quotes_quoted in H. by injection H.
  - intros Hnq. revert H. unfold strip_quotes.
    destruct (is_bounded value dquote dquote) as [[]|] eqn:Hb; [| |done].
    + intros Hs. destruct (Hnq v). by apply bounded_form.
    + by intros [= ->].
Qed.

(** X3: a key/value line whose value (the trimmed text after the first
    [=]) is neither empty nor a lone double quote, parsed in an active
    section of a well-formed store, succeeds; [Get] then returns for
    that section and key the value, without its outer pair of double
    quotes when it has one and as it is otherwise, and answers every
    other section and key as before. *)
Theorem assigned_value_is_read_back line key value st sec :
  wf st → cur_name st = Some sec →
  key_value line = Some (key, value) →
  value ≠ EmptyString → value ≠ String dquote EmptyString →
  ∃ v st1,
    (∀ w, value = quoted w → v = w) ∧ ((∀ w, value ≠ quoted w) → v = value) ∧
    _parse_line line st = (Ret (true, None), st1) ∧
    Get sec key st1 = (Ret (v, None), st1) ∧
    ∀ sec' key', (sec', key') ≠ (sec, key) →
      (Get sec' key' st1).1 = (Get sec' key' st).1.
Proof.
  intros Hwf Hcur Hkv Hne Hnq.
  destruct (strip_quotes value) as [v|why] eqn:Hq; last first.
  { destruct (proj1 (strip_quotes_Panic value)) as [?|?]; [by eexists|done..]. }
  destruct (strip_quotes_Ret _ _ Hq) as [Hquoted Hplain].
  pose proof (cur_name_Some _ _ Hcur) as Hin.
  destruct (wf_active _ Hwf Hin) as (p & s & Hp & Hs & Hcur').
  destruct (assign_step (TrimSpace line) key v st _ Hwf Hcur)
    as (st1 & Hst1 & Hwf1 & _ & Hf).
  exists v, st1. split_and!; [done..| | |].
  - by rewrite _parse_line_lex, (lex_key_value_line _ _ _ Hkv), Hq.
  - apply field_of_Get. rewrite Hf. by rewrite decide_True.
  - intros sec' key' Hne'. rewrite !Get_view by done. simpl.
    rewrite Hf, decide_False by done.
    rewrite (assign_inside _ _ _ _ _ _ Hin Hp Hs) in Hst1.
    injection Hst1 as <-. done.
Qed.

Lemma assigned_value_is_read_back_witness :
  ∃ v st1,
    (∀ w, "b = c" = quoted w → v = w) ∧ ((∀ w, "b = c" ≠ quoted w) → v = "b = c") ∧
    _parse_line " a=b = c " st_in_s = (Ret (true, None), st1) ∧
    Get "s" "a" st1 = (Ret (v, None), st1) ∧
    ∀ sec' key', (sec', key') ≠ ("s", "a") →
      (Get sec' key' st1).1 = (Get sec' key' st_in_s).1.
Proof.
  apply (assigned_value_is_read_back " a=b = c " "a" "b = c" st_in_s "s").
  - apply wf_st_in_s.
  - vm_compute. reflexivity.
  - vm_compute. reflexivity.
  - discriminate.
  - discriminate.
Defined.

End stored_value.
